(** * langgraphgo: the message-graph engine of [graph/graph.go]

    A shallow embedding of the package [graph]: the builder
    ([NewMessageGraph], [AddNode], [AddEdge], [SetEntryPoint]), [Compile]
    and the execution loop [Invoke], followed by the properties of the
    specification that concern them.

    Conventions.
    - A [*MessageGraph] is a location in a heap of graph objects; the
      builder methods have pointer receivers and update the object in
      place, and a [Runnable] keeps the pointer (no copy is made).
    - Node functions are Go closures of type
      [func(ctx, state) (state, error)]; they are embedded as total
      functions of their two arguments.  Every call the engine makes to a
      node function is recorded, by node name, in the [calls] component of
      the world, so that "which functions ran, and in which order" can be
      stated.  Module [Shared] gives the loop once more with node functions
      as closures that read and write the store (the graph objects and the
      backing arrays of slices); it is used for what depends on the
      objects a node function shares with the engine and with the caller.
    - [Invoke] loops with [for { ... }] and need not terminate; the loop is
      embedded with a bound on the number of iterations ([OutOfFuel] when
      the bound is hit). *)

From Stdlib Require Import String Ascii List Lia.
From stdpp Require Import gmap strings list.

Open Scope string_scope.
Open Scope list_scope.

(** ** The part of [langchaingo/llms] used by the package and its tests *)

Module llms.

Inductive ChatMessageType : Type :=
| ChatMessageTypeAI
| ChatMessageTypeHuman
| ChatMessageTypeSystem
| ChatMessageTypeGeneric
| ChatMessageTypeFunction
| ChatMessageTypeTool.

Inductive ContentPart : Type :=
| TextContent (Text : string)
| ImageURLContent (URL : string)
| BinaryContent (MIMEType : string) (Data : list Byte.byte).

Record MessageContent : Type :=
  { Role : ChatMessageType; Parts : list ContentPart }.

(** [llms.TextParts(role, text)] *)
Definition TextParts (role : ChatMessageType) (text : string) : MessageContent :=
  {| Role := role; Parts := [TextContent text] |}.

End llms.

(** ** Go values: slices, contexts, errors *)

(** A Go slice value is either [nil] or a sequence of elements. *)
Inductive slice (A : Type) : Type :=
| nil_slice
| mk_slice (elems : list A).
Arguments nil_slice {A}.
Arguments mk_slice {A} elems.

(** [append(s, x)]: appending to [nil] allocates. *)
Definition append {A : Type} (s : slice A) (x : A) : slice A :=
  match s with
  | nil_slice => mk_slice [x]
  | mk_slice l => mk_slice (l ++ [x])
  end.

(** [context.Context]: the engine only hands it on to node functions. *)
Inductive Context : Type :=
| Background
| WithValue (parent : Context) (key val : string).

(** The three package-level error values, each created once by
    [errors.New]; [errors.Is] recognises them by identity. *)
Inductive sentinel : Type :=
| EntryPointNotSet
| NodeNotFound
| NoOutgoingEdge.

(** Go [error] values: a package sentinel, some other [errors.New] value,
    or the result of [fmt.Errorf] with one [%w] verb. *)
Inductive error : Type :=
| sentinelError (k : sentinel)
| errorString (s : string)
| wrapError (msg : string) (err : error).

Definition sentinel_eqb (a b : sentinel) : bool :=
  match a, b with
  | EntryPointNotSet, EntryPointNotSet => true
  | NodeNotFound, NodeNotFound => true
  | NoOutgoingEdge, NoOutgoingEdge => true
  | _, _ => false
  end.

Definition sentinel_text (k : sentinel) : string :=
  match k with
  | EntryPointNotSet => "entry point not set"
  | NodeNotFound => "node not found"
  | NoOutgoingEdge => "no outgoing edge found for node"
  end.

(** [err.Error()] *)
Definition Error (e : error) : string :=
  match e with
  | sentinelError k => sentinel_text k
  | errorString s => s
  | wrapError msg _ => msg
  end.

(** [errors.Is(err, target)] for a package sentinel [target]. *)
Fixpoint Is (e : error) (target : sentinel) : bool :=
  match e with
  | sentinelError k => sentinel_eqb k target
  | errorString _ => false
  | wrapError _ err => Is err target
  end.

(** [fmt.Errorf("%w: %s", err, s)] *)
Definition Errorf_w_s (err : error) (s : string) : error :=
  wrapError (Error err +:+ ": " +:+ s) err.

(** [fmt.Errorf("error in node %s: %w", s, err)] *)
Definition Errorf_in_node (s : string) (err : error) : error :=
  wrapError ("error in node " +:+ s +:+ ": " +:+ Error err) err.

(** ** Package [graph]: constants and types *)

Definition END : string := "END".

Definition ErrEntryPointNotSet : error := sentinelError EntryPointNotSet.
Definition ErrNodeNotFound : error := sentinelError NodeNotFound.
Definition ErrNoOutgoingEdge : error := sentinelError NoOutgoingEdge.

(** [[]llms.MessageContent] *)
Definition State : Type := slice llms.MessageContent.

Record Node : Type :=
  { Name : string;
    Function : Context -> State -> State * option error }.

Record Edge : Type :=
  { From : string;
    To : string }.

Record MessageGraph : Type :=
  { nodes : gmap string Node;
    edges : list Edge;
    entryPoint : string }.

(** [*MessageGraph] *)
Definition ptr : Type := positive.

Record Runnable : Type :=
  { graph : ptr }.

(** ** Worlds and the execution monad *)

Record World : Type :=
  { heap : gmap ptr MessageGraph;
    calls : list string }.

Inductive result (A : Type) : Type :=
| Normal (a : A) (w : World)
| Panic
| OutOfFuel.
Arguments Normal {A} a w.
Arguments Panic {A}.
Arguments OutOfFuel {A}.

Definition M (A : Type) : Type := World -> result A.

#[export] Instance M_ret : MRet M := fun A a w => Normal a w.

#[export] Instance M_bind : MBind M := fun A B k m w =>
  match m w with
  | Normal a w' => k a w'
  | Panic => Panic
  | OutOfFuel => OutOfFuel
  end.

(** Reading through a pointer; a nil pointer panics. *)
Definition load (g : ptr) : M MessageGraph :=
  fun w =>
    match heap w !! g with
    | Some G => Normal G w
    | None => Panic
    end.

(** Writing through a pointer. *)
Definition store (g : ptr) (G : MessageGraph) : M unit :=
  fun w =>
    match heap w !! g with
    | Some _ => Normal tt {| heap := <[g := G]> (heap w); calls := calls w |}
    | None => Panic
    end.

(** [&MessageGraph{...}]: a fresh object. *)
Definition alloc (G : MessageGraph) : M ptr :=
  fun w =>
    let g := fresh (dom (heap w)) in
    Normal g {| heap := <[g := G]> (heap w); calls := calls w |}.

(** Calling the function of the node registered as [name]. *)
Definition call (name : string) (node : Node) (ctx : Context) (state : State)
  : M (State * option error) :=
  fun w =>
    Normal (Function node ctx state)
           {| heap := heap w; calls := calls w ++ [name] |}.

(** ** The builder *)

Definition NewMessageGraph : M ptr :=
  alloc {| nodes := ∅; edges := []; entryPoint := EmptyString |}.

(** [g.nodes[name] = Node{...}]; the map is the one made by
    [NewMessageGraph]. *)
Definition AddNode (g : ptr) (name : string)
    (fn : Context -> State -> State * option error) : M unit :=
  G ← load g;
  store g {| nodes := <[name := {| Name := name; Function := fn |}]> (nodes G);
             edges := edges G;
             entryPoint := entryPoint G |}.

Definition AddEdge (g : ptr) (from to : string) : M unit :=
  G ← load g;
  store g {| nodes := nodes G;
             edges := edges G ++ [{| From := from; To := to |}];
             entryPoint := entryPoint G |}.

Definition SetEntryPoint (g : ptr) (name : string) : M unit :=
  G ← load g;
  store g {| nodes := nodes G;
             edges := edges G;
             entryPoint := name |}.

(** ** Compile *)

Definition Compile (g : ptr) : M (option Runnable * option error) :=
  G ← load g;
  if String.eqb (entryPoint G) EmptyString
  then mret (None, Some ErrEntryPointNotSet)
  else mret (Some {| graph := g |}, None).

(** ** Invoke *)

(** The inner [for _, edge := range r.graph.edges] with its [break]:
    the values of [currentNode] and [foundNext] when it ends. *)
Fixpoint range_edges (es : list Edge) (currentNode : string) : string * bool :=
  match es with
  | [] => (currentNode, false)
  | edge :: es' =>
      if String.eqb (From edge) currentNode
      then (To edge, true)
      else range_edges es' currentNode
  end.

(** The outer [for { ... }], from the values of [state] and [currentNode]
    at the head of an iteration. *)
Fixpoint Invoke_loop (fuel : nat) (r : Runnable) (ctx : Context)
    (state : State) (currentNode : string) : M (State * option error) :=
  match fuel with
  | O => fun _ => OutOfFuel
  | S fuel' =>
      G ← load (graph r);
      match nodes G !! currentNode with
      | None => mret (nil_slice, Some (Errorf_w_s ErrNodeNotFound currentNode))
      | Some node =>
          res ← call currentNode node ctx state;
          match res with
          | (_, Some err) => mret (nil_slice, Some (Errorf_in_node currentNode err))
          | (state', None) =>
              if String.eqb currentNode END
              then mret (state', None)
              else
                G' ← load (graph r);
                match range_edges (edges G') currentNode with
                | (_, false) =>
                    mret (nil_slice, Some (Errorf_w_s ErrNoOutgoingEdge currentNode))
                | (next, true) => Invoke_loop fuel' r ctx state' next
                end
          end
      end
  end.

Definition Invoke (fuel : nat) (r : Runnable) (ctx : Context) (messages : State)
  : M (State * option error) :=
  G ← load (graph r);
  Invoke_loop fuel r ctx messages (entryPoint G).

(** ** Auxiliary notions used to state the properties *)

(** The world after the node functions named in [tr] have been called. *)
Definition called (tr : list string) (w : World) : World :=
  {| heap := heap w; calls := calls w ++ tr |}.

(** What one iteration of the outer loop does on the graph value [G] read
    through [r.graph]: it either goes on with a new state and cursor, or
    leaves the loop with the values [Invoke] returns. The boolean tells
    whether the node function was called. *)
Inductive Step : Type :=
| Continue (state : State) (next : string)
| Return (res : State * option error).

Definition iteration (G : MessageGraph) (ctx : Context)
    (state : State) (currentNode : string) : bool * Step :=
  match nodes G !! currentNode with
  | None =>
      (false, Return (nil_slice, Some (Errorf_w_s ErrNodeNotFound currentNode)))
  | Some node =>
      match Function node ctx state with
      | (_, Some err) =>
          (true, Return (nil_slice, Some (Errorf_in_node currentNode err)))
      | (state', None) =>
          if String.eqb currentNode END
          then (true, Return (state', None))
          else
            match range_edges (edges G) currentNode with
            | (_, false) =>
                (true, Return (nil_slice,
                               Some (Errorf_w_s ErrNoOutgoingEdge currentNode)))
            | (next, true) => (true, Continue state' next)
            end
      end
  end.

(** [iterate k G ctx state cur = Some (state', cur', tr)]: starting an
    iteration with [state] and cursor [cur], the loop goes round [k] times
    without leaving, calling the functions of the nodes [tr] in turn, and
    is then at the head of an iteration with [state'] and cursor [cur']. *)
Fixpoint iterate (k : nat) (G : MessageGraph) (ctx : Context)
    (state : State) (cur : string) : option (State * string * list string) :=
  match k with
  | O => Some (state, cur, [])
  | S k' =>
      match iteration G ctx state cur with
      | (_, Continue state' next) =>
          match iterate k' G ctx state' next with
          | Some (s, c, tr) => Some (s, c, cur :: tr)
          | None => None
          end
      | (_, Return _) => None
      end
  end.

(** The path obtained by following [From -> To] edges from [cur] up to
    [END], in at most [n] hops. *)
Fixpoint follow (n : nat) (es : list Edge) (cur : string) : option (list string) :=
  match n with
  | O => None
  | S n' =>
      if String.eqb cur END then Some [cur]
      else
        match range_edges es cur with
        | (next, true) =>
            match follow n' es next with
            | Some p => Some (cur :: p)
            | None => None
            end
        | (_, false) => None
        end
  end.

(** Left-to-right composition of the functions of the nodes named in
    [path], applied to [s]; undefined when a name is not registered or a
    function reports an error. *)
Fixpoint compose (G : MessageGraph) (ctx : Context) (path : list string)
    (s : State) : option State :=
  match path with
  | [] => Some s
  | name :: rest =>
      match nodes G !! name with
      | None => None
      | Some node =>
          match Function node ctx s with
          | (s', None) => compose G ctx rest s'
          | (_, Some _) => None
          end
      end
  end.

(** The value part of a result. *)
Definition value {A : Type} (x : result A) : option A :=
  match x with
  | Normal a _ => Some a
  | _ => None
  end.

(** ** Builder histories *)

(** A call of one of the builder's methods. *)
Inductive BuilderCall : Type :=
| CallAddNode (name : string) (fn : Context -> State -> State * option error)
| CallAddEdge (from to : string)
| CallSetEntryPoint (name : string).

Definition perform (g : ptr) (c : BuilderCall) : M unit :=
  match c with
  | CallAddNode name fn => AddNode g name fn
  | CallAddEdge from to => AddEdge g from to
  | CallSetEntryPoint name => SetEntryPoint g name
  end.

Fixpoint perform_all (g : ptr) (cs : list BuilderCall) : M unit :=
  match cs with
  | [] => mret tt
  | c :: cs' => perform g c;; perform_all g cs'
  end.

(** [g := NewMessageGraph()] followed by the calls [cs] on [g]. *)
Definition new_builder (cs : list BuilderCall) : M ptr :=
  g ← NewMessageGraph;
  perform_all g cs;;
  mret g.

Definition is_SetEntryPoint (c : BuilderCall) : bool :=
  match c with
  | CallSetEntryPoint _ => true
  | _ => false
  end.

(** The effect of a call on the object it is applied to. *)
Definition after_call (G : MessageGraph) (c : BuilderCall) : MessageGraph :=
  match c with
  | CallAddNode name fn =>
      {| nodes := <[name := {| Name := name; Function := fn |}]> (nodes G);
         edges := edges G;
         entryPoint := entryPoint G |}
  | CallAddEdge from to =>
      {| nodes := nodes G;
         edges := edges G ++ [{| From := from; To := to |}];
         entryPoint := entryPoint G |}
  | CallSetEntryPoint name =>
      {| nodes := nodes G;
         edges := edges G;
         entryPoint := name |}
  end.

(** The world in which the object at [g] has been replaced by [G]. *)
Definition updated (g : ptr) (G : MessageGraph) (w : World) : World :=
  {| heap := <[g := G]> (heap w); calls := calls w |}.

(** ** Graphs of the package's tests, used as concrete inputs *)

Definition appendAI (text : string) : Context -> State -> State * option error :=
  fun _ state => (append state (llms.TextParts llms.ChatMessageTypeAI text), None).

Definition passthrough : Context -> State -> State * option error :=
  fun _ state => (state, None).

Definition failing (text : string) : Context -> State -> State * option error :=
  fun _ _ => (nil_slice, Some (errorString text)).

Definition empty_world : World := {| heap := ∅; calls := [] |}.

Definition input_A : State :=
  mk_slice [llms.TextParts llms.ChatMessageTypeHuman "Input"].

Definition output_A : State :=
  mk_slice [llms.TextParts llms.ChatMessageTypeHuman "Input";
            llms.TextParts llms.ChatMessageTypeAI "Node 1";
            llms.TextParts llms.ChatMessageTypeAI "Node 2"].

(** Scenario A: nodes n1, n2 and a passthrough END; n1 -> n2 -> END. *)
Definition build_A : M ptr :=
  g ← NewMessageGraph;
  AddNode g "n1" (appendAI "Node 1");;
  AddNode g "n2" (appendAI "Node 2");;
  AddNode g END passthrough;;
  AddEdge g "n1" "n2";;
  AddEdge g "n2" END;;
  SetEntryPoint g "n1";;
  mret g.

(** Build, compile and invoke scenario A in the empty world. *)
Definition run_A (fuel : nat) : M (State * option error) :=
  g ← build_A;
  c ← Compile g;
  match c with
  | (Some r, _) => Invoke fuel r Background input_A
  | (None, err) => mret (nil_slice, err)
  end.

(** The object a pointer denotes after a builder program has run. *)
Definition built (prog : M ptr) : option (ptr * MessageGraph * World) :=
  match prog empty_world with
  | Normal g w =>
      match heap w !! g with
      | Some G => Some (g, G, w)
      | None => None
      end
  | _ => None
  end.

(** A world holding the single graph object [G] at address 1. *)
Definition world_of (G : MessageGraph) : World :=
  {| heap := {[ 1%positive := G ]}; calls := [] |}.

Definition r1 : Runnable := {| graph := 1%positive |}.

Definition node (name : string) (fn : Context -> State -> State * option error)
  : string * Node := (name, {| Name := name; Function := fn |}).

Definition graph_A : MessageGraph :=
  {| nodes := list_to_map [node "n1" (appendAI "Node 1");
                           node "n2" (appendAI "Node 2");
                           node END passthrough];
     edges := [ {| From := "n1"; To := "n2" |}; {| From := "n2"; To := END |} ];
     entryPoint := "n1" |}.

(** Test "Simple graph": as scenario A, but no node is registered as END. *)
Definition graph_no_END : MessageGraph :=
  {| nodes := list_to_map [node "node1" (appendAI "Node 1");
                           node "node2" (appendAI "Node 2")];
     edges := [ {| From := "node1"; To := "node2" |};
                {| From := "node2"; To := END |} ];
     entryPoint := "node1" |}.

(** Test "No outgoing edge". *)
Definition graph_dead_end : MessageGraph :=
  {| nodes := list_to_map [node "node1" passthrough];
     edges := [];
     entryPoint := "node1" |}.

(** Test "Error in node function". *)
Definition graph_node_error : MessageGraph :=
  {| nodes := list_to_map [node "node1" (failing "node error")];
     edges := [ {| From := "node1"; To := END |} ];
     entryPoint := "node1" |}.

(** Two edges leave n1; END has an outgoing edge and transforms the state. *)
Definition graph_two_edges : MessageGraph :=
  {| nodes := list_to_map [node "n1" (appendAI "Node 1");
                           node "n2" (appendAI "Node 2");
                           node END (appendAI "done")];
     edges := [ {| From := "n1"; To := END |};
                {| From := "n1"; To := "n2" |};
                {| From := END; To := "n1" |} ];
     entryPoint := "n1" |}.

(** A builder with a node registered under the empty name. *)
Definition graph_empty_name : MessageGraph :=
  {| nodes := list_to_map [node EmptyString passthrough; node END passthrough];
     edges := [ {| From := EmptyString; To := END |} ];
     entryPoint := "n1" |}.

(** ** Conditional edges

    [graph/graph.go] has no [AddConditionalEdge]: its [Edge] carries the two
    strings [From] and [To] and [Invoke] assigns [edge.To]. The package's
    test "Conditional edge - condition for edge fulfilled" calls
    [g.AddConditionalEdge(from, routingFn)], so the operation belongs to the
    package, but its code is not part of the sources at hand. The module
    below renders it from sections 3, 4.1 and 4.3 of the specification. *)

Module Conditional.

(** Modelled from the spec: the target of an edge (section 3), "a static
    target: a fixed node name, or a conditional target: resolved at
    execution time by invoking a routing function
    (context, State) -> string". The edge type with a routing function is
    missing from graph/graph.go. *)
Inductive Target : Type :=
| Static (to : string)
| Routed (routingFn : Context -> State -> string).

(** Modelled from the spec: "Edge: a directed relation From -> To"
    (section 3), with the target above. *)
Record Edge : Type :=
  { From : string;
    To : Target }.

(** Modelled from the spec: the builder's data (section 2), "named nodes,
    directed edges (static or conditional), and a designated entry
    node". *)
Record MessageGraph : Type :=
  { nodes : gmap string Node;
    edges : list Edge;
    entryPoint : string }.

(** Modelled from the spec: "AddEdge(from, to): appends a static edge"
    (section 4.1). *)
Definition AddEdge (G : MessageGraph) (from to : string) : MessageGraph :=
  {| nodes := nodes G;
     edges := edges G ++ [{| From := from; To := Static to |}];
     entryPoint := entryPoint G |}.

(** Modelled from the spec: "AddConditionalEdge(from, routingFn): appends
    a conditional edge whose target is computed at execution time"
    (section 4.1); the function is missing from graph/graph.go. *)
Definition AddConditionalEdge (G : MessageGraph) (from : string)
    (routingFn : Context -> State -> string) : MessageGraph :=
  {| nodes := nodes G;
     edges := edges G ++ [{| From := from; To := Routed routingFn |}];
     entryPoint := entryPoint G |}.

(** Modelled from the spec: step 2e of section 4.3, "Scan edges in
    registration order; find the first edge whose From == current. If it
    is a static edge, next := edge.To. If it is a conditional edge,
    next := routingFn(ctx, state)"; [None] when no edge has
    [From == current]. *)
Fixpoint resolve (es : list Edge) (ctx : Context) (state : State)
    (current : string) : option string :=
  match es with
  | [] => None
  | edge :: es' =>
      if String.eqb (From edge) current
      then Some (match To edge with
                 | Static to => to
                 | Routed routingFn => routingFn ctx state
                 end)
      else resolve es' ctx state current
  end.

(** Modelled from the spec: the loop of section 4.3, steps 2a to 2f, from
    the head of an iteration; [visited] lists the nodes whose functions
    have been called, [None] stands for a run longer than [fuel]
    iterations. *)
Fixpoint Invoke_loop (fuel : nat) (G : MessageGraph) (ctx : Context)
    (state : State) (current : string) (visited : list string)
  : option (State * option error * list string) :=
  match fuel with
  | O => None
  | S fuel' =>
      match nodes G !! current with
      | None =>
          Some (nil_slice, Some (Errorf_w_s ErrNodeNotFound current), visited)
      | Some node =>
          match Function node ctx state with
          | (_, Some err) =>
              Some (nil_slice, Some (Errorf_in_node current err),
                    visited ++ [current])
          | (state', None) =>
              if String.eqb current END
              then Some (state', None, visited ++ [current])
              else
                match resolve (edges G) ctx state' current with
                | None =>
                    Some (nil_slice,
                          Some (Errorf_w_s ErrNoOutgoingEdge current),
                          visited ++ [current])
                | Some next =>
                    Invoke_loop fuel' G ctx state' next (visited ++ [current])
                end
          end
      end
  end.

(** Modelled from the spec: step 1 of section 4.3,
    "state := initialState; current := entryPoint". *)
Definition Invoke (fuel : nat) (G : MessageGraph) (ctx : Context)
    (initialState : State) : option (State * option error * list string) :=
  Invoke_loop fuel G ctx initialState (entryPoint G) [].

End Conditional.

(** A graph of graph/graph.go, seen as a graph all of whose edges are
    static. *)
Definition of_static (G : MessageGraph) : Conditional.MessageGraph :=
  {| Conditional.nodes := nodes G;
     Conditional.edges :=
       map (λ e, {| Conditional.From := From e;
                    Conditional.To := Conditional.Static (To e) |})
           (edges G);
     Conditional.entryPoint := entryPoint G |}.

(** Scenario B, from the test "Conditional edge - condition for edge
    fulfilled": node1 routes to "calculator" when the text of the last
    message contains "calculator", and to node2 otherwise. *)

(** [strings.Contains(s, substr)] *)
Definition Contains (s substr : string) : bool :=
  match String.index 0 substr s with
  | Some _ => true
  | None => false
  end.

Definition route_B : Context -> State -> string :=
  fun _ state =>
    match state with
    | mk_slice l =>
        match last l with
        | Some {| llms.Parts := llms.TextContent text :: _ |} =>
            if Contains text "calculator" then "calculator" else "node2"
        | _ => "node2"
        end
    | nil_slice => "node2"
    end.

Definition appendMsg (role : llms.ChatMessageType) (text : string)
  : Context -> State -> State * option error :=
  fun _ state => (append state (llms.TextParts role text), None).

Definition graph_B : Conditional.MessageGraph :=
  let G0 :=
    {| Conditional.nodes :=
         list_to_map
           [node "node1" (appendMsg llms.ChatMessageTypeAI
                                    "function calling: use calculator");
            node "node2" (appendMsg llms.ChatMessageTypeAI "Node 2");
            node "calculator" (appendMsg llms.ChatMessageTypeTool "1+1=2");
            node END passthrough];
       Conditional.edges := [];
       Conditional.entryPoint := "node1" |} in
  let G1 := Conditional.AddConditionalEdge G0 "node1" route_B in
  let G2 := Conditional.AddEdge G1 "node1" "node2" in
  let G3 := Conditional.AddEdge G2 "node2" END in
  Conditional.AddEdge G3 "calculator" END.

Definition input_B : State :=
  mk_slice [llms.TextParts llms.ChatMessageTypeHuman "what is 1+1?"].

(** The state after node1 has run on [input_B]. *)
Definition output_B_1 : State :=
  mk_slice [llms.TextParts llms.ChatMessageTypeHuman "what is 1+1?";
            llms.TextParts llms.ChatMessageTypeAI "function calling: use calculator"].

Definition output_B : State :=
  mk_slice [llms.TextParts llms.ChatMessageTypeHuman "what is 1+1?";
            llms.TextParts llms.ChatMessageTypeAI "function calling: use calculator";
            llms.TextParts llms.ChatMessageTypeTool "1+1=2"].

(** ** Runs as values *)

(** The run of the outer loop on the graph value [G], for at most [fuel]
    iterations: what [Invoke] returns and the node functions called, in
    order. [Invoke_loop_run] relates it to [Invoke_loop]. *)
Fixpoint run (fuel : nat) (G : MessageGraph) (ctx : Context)
    (state : State) (cur : string)
  : option (State * option error * list string) :=
  match fuel with
  | O => None
  | S fuel' =>
      match iteration G ctx state cur with
      | (_, Continue state' next) =>
          match run fuel' G ctx state' next with
          | Some (res, tr) => Some (res, cur :: tr)
          | None => None
          end
      | (b, Return res) => Some (res, if b then [cur] else [])
      end
  end.

(** What a caller sees of a result: the value returned and the calls made
    so far. *)
Definition observe {A : Type} (x : result A) : option (A * list string) :=
  match x with
  | Normal a w => Some (a, calls w)
  | _ => None
  end.

(** The edge a builder call registers, if any. *)
Definition edge_of_call (c : BuilderCall) : option Edge :=
  match c with
  | CallAddEdge from to => Some {| From := from; To := to |}
  | _ => None
  end.

(** Whether a builder call registers a node under [name]. *)
Definition is_AddNode (name : string) (c : BuilderCall) : bool :=
  match c with
  | CallAddNode n _ => String.eqb n name
  | _ => false
  end.

(** A world with two builders, at addresses 1 and 2. *)
Definition world_two : World :=
  {| heap := <[ 2%positive := graph_dead_end ]> {[ 1%positive := graph_A ]};
     calls := [] |}.

(** ** The earlier version of the package

    The repository also holds an earlier [graph.go], with the same types
    and builder methods, in which errors are made by [fmt.Errorf] without
    [%w] and the error of a node function is returned as it is. *)

Module Legacy.

(** [fmt.Errorf("node not found: %s", s)] and
    [fmt.Errorf("no outgoing edge found for node: %s", s)]: no [%w], so
    nothing is wrapped. *)
Definition Errorf_s (text s : string) : error :=
  errorString (text +:+ s).

Definition Compile (g : ptr) : M (option Runnable * option error) :=
  G ← load g;
  if String.eqb (entryPoint G) EmptyString
  then mret (None, Some (errorString "entry point not set"))
  else mret (Some {| graph := g |}, None).

Fixpoint Invoke_loop (fuel : nat) (r : Runnable) (ctx : Context)
    (state : State) (currentNode : string) : M (State * option error) :=
  match fuel with
  | O => fun _ => OutOfFuel
  | S fuel' =>
      G ← load (graph r);
      match nodes G !! currentNode with
      | None => mret (nil_slice, Some (Errorf_s "node not found: " currentNode))
      | Some node =>
          res ← call currentNode node ctx state;
          match res with
          | (_, Some err) => mret (nil_slice, Some err)
          | (state', None) =>
              if String.eqb currentNode END
              then mret (state', None)
              else
                G' ← load (graph r);
                match range_edges (edges G') currentNode with
                | (_, false) =>
                    mret (nil_slice,
                          Some (Errorf_s "no outgoing edge found for node: "
                                         currentNode))
                | (next, true) => Invoke_loop fuel' r ctx state' next
                end
          end
      end
  end.

Definition Invoke (fuel : nat) (r : Runnable) (ctx : Context) (messages : State)
  : M (State * option error) :=
  G ← load (graph r);
  Invoke_loop fuel r ctx messages (entryPoint G).

End Legacy.

(** How an error of the current version relates to the error the earlier
    version returns in its place: the same text without the wrapped
    sentinel, or the node's own error without the prefix. *)
Definition legacy_error (e e' : error) : Prop :=
  (∃ k s, e = Errorf_w_s (sentinelError k) s ∧ e' = errorString (Error e))
  ∨ (∃ cur, e = Errorf_in_node cur e').

Definition legacy_result (res res' : State * option error) : Prop :=
  fst res' = fst res ∧
  match snd res, snd res' with
  | None, None => True
  | Some e, Some e' => legacy_error e e'
  | _, _ => False
  end.

(** The results of the current and of the earlier [Invoke] on the same
    input: both run out of iterations, or both return, after the same
    calls, results related by [legacy_result]. *)
Definition legacy_sim (x x' : result (State * option error)) : Prop :=
  match x, x' with
  | Normal res w, Normal res' w' => w' = w ∧ legacy_result res res'
  | OutOfFuel, OutOfFuel => True
  | _, _ => False
  end.

(** [linked es cur tr]: the calls [tr] start at [cur] and go from each
    node, which is not [END], to the target of the first edge of [es] that
    leaves it. *)
Fixpoint linked (es : list Edge) (cur : string) (tr : list string) : Prop :=
  match tr with
  | [] => True
  | name :: rest =>
      name = cur ∧
      (rest = [] ∨
       (cur ≠ END ∧ ∃ next, range_edges es cur = (next, true) ∧ linked es next rest))
  end.

(** ** Node functions as closures on shared objects

    A node function is a Go closure: besides its two arguments it reaches
    whatever it has captured, the builder for one, and the slice it is
    handed is a window on an array that the caller of [Invoke] still
    holds. In this module the store holds the graph objects and the
    backing arrays, a closure is a computation on the store, and
    [Invoke_loop] is the loop of graph.go again, reading [r.graph] from the
    store each time the source does. *)

Module Shared.

(** A Go slice value: [nil], or a window of [len] elements, with room for
    [cap], that starts at index [off] of a backing array. *)
Inductive slice : Type :=
| Nil
| Window (array : ptr) (off len cap : nat).

(** [[]llms.MessageContent] *)
Definition State : Type := slice.

(** A func value is nil or a closure. A closure is named by its index in
    the table of the closures of the program; an index outside the table
    stands for the nil func. *)
Record Node : Type :=
  { Name : string;
    Function : nat }.

Record MessageGraph : Type :=
  { nodes : gmap string Node;
    edges : list Edge;
    entryPoint : string }.

Record Store : Type :=
  { graphs : gmap ptr MessageGraph;
    arrays : gmap ptr (list llms.MessageContent) }.

Inductive result (A : Type) : Type :=
| Normal (a : A) (mem : Store)
| Panic
| OutOfFuel.
Arguments Normal {A} a mem.
Arguments Panic {A}.
Arguments OutOfFuel {A}.

Definition M (A : Type) : Type := Store -> result A.

#[export] Instance M_ret : MRet M := fun A a mem => Normal a mem.

#[export] Instance M_bind : MBind M := fun A B k m mem =>
  match m mem with
  | Normal a mem' => k a mem'
  | Panic => Panic
  | OutOfFuel => OutOfFuel
  end.

(** [func(ctx context.Context, state []llms.MessageContent)
    ([]llms.MessageContent, error)], as what a call of it does. *)
Definition closure : Type := Context -> State -> M (State * option error).

(** Reading a graph object through a pointer; a nil pointer panics. *)
Definition load (g : ptr) : M MessageGraph :=
  fun mem =>
    match graphs mem !! g with
    | Some G => Normal G mem
    | None => Panic
    end.

(** [node.Function(ctx, state)]; calling the nil func panics. *)
Definition call (code : list closure) (node : Node) (ctx : Context)
    (state : State) : M (State * option error) :=
  match code !! Function node with
  | Some f => f ctx state
  | None => fun _ => Panic
  end.

(** [g.AddEdge(from, to)] *)
Definition AddEdge (g : ptr) (from to : string) : M unit :=
  fun mem =>
    match graphs mem !! g with
    | Some G =>
        Normal tt
          {| graphs := <[g := {| nodes := nodes G;
                                 edges := edges G ++ [{| From := from; To := to |}];
                                 entryPoint := entryPoint G |}]> (graphs mem);
             arrays := arrays mem |}
    | None => Panic
    end.

(** The elements of a slice. *)
Definition elems (mem : Store) (s : slice) : list llms.MessageContent :=
  match s with
  | Nil => []
  | Window a off len _ => take len (drop off (default [] (arrays mem !! a)))
  end.

(** [append(s, x)]: when the capacity allows, the element is written into
    the backing array of [s]; otherwise the elements are copied to a new
    array (whose capacity Go leaves to the implementation; it is taken as
    small as possible here). *)
Definition append (s : slice) (x : llms.MessageContent) : M slice :=
  fun mem =>
    match s with
    | Window a off len cap =>
        if Nat.ltb len cap
        then Normal (Window a off (S len) cap)
               {| graphs := graphs mem;
                  arrays := alter (λ l, <[off + len := x]> l) a (arrays mem) |}
        else
          let a' := fresh (dom (arrays mem)) in
          Normal (Window a' 0 (S len) (S len))
            {| graphs := graphs mem;
               arrays := <[a' := elems mem s ++ [x]]> (arrays mem) |}
    | Nil =>
        let a' := fresh (dom (arrays mem)) in
        Normal (Window a' 0 1 1)
          {| graphs := graphs mem;
             arrays := <[a' := [x]]> (arrays mem) |}
    end.

(** The outer [for { ... }] of [Invoke]. *)
Fixpoint Invoke_loop (code : list closure) (fuel : nat) (r : Runnable)
    (ctx : Context) (state : State) (currentNode : string)
  : M (State * option error) :=
  match fuel with
  | O => fun _ => OutOfFuel
  | S fuel' =>
      G ← load (graph r);
      match nodes G !! currentNode with
      | None => mret (Nil, Some (Errorf_w_s ErrNodeNotFound currentNode))
      | Some node =>
          res ← call code node ctx state;
          match res with
          | (_, Some err) => mret (Nil, Some (Errorf_in_node currentNode err))
          | (state', None) =>
              if String.eqb currentNode END
              then mret (state', None)
              else
                G' ← load (graph r);
                match range_edges (edges G') currentNode with
                | (_, false) =>
                    mret (Nil, Some (Errorf_w_s ErrNoOutgoingEdge currentNode))
                | (next, true) => Invoke_loop code fuel' r ctx state' next
                end
          end
      end
  end.

Definition Invoke (code : list closure) (fuel : nat) (r : Runnable)
    (ctx : Context) (messages : State) : M (State * option error) :=
  G ← load (graph r);
  Invoke_loop code fuel r ctx messages (entryPoint G).

(** [node_effects code mem mem']: [mem'] is what calls of closures of
    [code], one after the other, make of [mem]. *)
Inductive node_effects (code : list closure) : Store -> Store -> Prop :=
| effects_none (mem : Store) : node_effects code mem mem
| effects_call (mem mem1 mem2 : Store) (i : nat) (f : closure)
    (ctx : Context) (s : State) (res : State * option error) :
    code !! i = Some f →
    f ctx s mem = Normal res mem1 →
    node_effects code mem1 mem2 →
    node_effects code mem mem2.

(** A node function that captures the builder [g] and the next node:
    [func(_, state) { g.AddEdge(from, to);
                      return append(state, TextParts(AI, text)), nil }]. *)
Definition rewire (g : ptr) (from to text : string) : closure :=
  fun _ state =>
    AddEdge g from to;;
    state' ← append state (llms.TextParts llms.ChatMessageTypeAI text);
    mret (state', None).

(** [func(_, state) { return append(state, TextParts(AI, text)), nil }] *)
Definition say (text : string) : closure :=
  fun _ state =>
    state' ← append state (llms.TextParts llms.ChatMessageTypeAI text);
    mret (state', None).

(** [func(_, state) { return state, nil }] *)
Definition keep : closure :=
  fun _ state => mret (state, None).

(** The builder at address 1: n1 and END registered, no edge, entry point
    n1; the closures of n1 and END are the first two of the table. *)
Definition graph_0 : MessageGraph :=
  {| nodes := list_to_map [("n1", {| Name := "n1"; Function := 0 |});
                           (END, {| Name := END; Function := 1 |})];
     edges := [];
     entryPoint := "n1" |}.

(** The caller holds an array of two messages and passes its first
    element: [all := []llms.MessageContent{input, draft};
    messages := all[:1]]. *)
Definition store_0 : Store :=
  {| graphs := {[ 1%positive := graph_0 ]};
     arrays := {[ 1%positive :=
                    [llms.TextParts llms.ChatMessageTypeHuman "Input";
                     llms.TextParts llms.ChatMessageTypeHuman "draft"] ]} |}.

Definition messages_0 : State := Window 1%positive 0 1 2.

(** The store after the call of [Invoke] with the closures [code_0]. *)
Definition store_1 : Store :=
  {| graphs := {[ 1%positive :=
                    {| nodes := nodes graph_0;
                       edges := [ {| From := "n1"; To := END |} ];
                       entryPoint := "n1" |} ]};
     arrays := {[ 1%positive :=
                    [llms.TextParts llms.ChatMessageTypeHuman "Input";
                     llms.TextParts llms.ChatMessageTypeAI "Node 1"] ]} |}.

Definition code_0 : list closure := [rewire 1%positive "n1" END "Node 1"; keep].

(** The same graph with the edge n1 -> END registered, and node functions
    that leave the builder alone. *)
Definition store_2 : Store :=
  {| graphs := graphs store_1; arrays := arrays store_0 |}.

Definition code_2 : list closure := [say "Node 1"; keep].

(** [store_0] after a node function has appended in place. *)
Definition store_3 : Store :=
  {| graphs := graphs store_0; arrays := arrays store_1 |}.

End Shared.

(** ** Basic facts *)

Lemma called_nil w : called [] w = w.
Proof. destruct w; unfold called; simpl. by rewrite app_nil_r. Qed.

Lemma called_app tr1 tr2 w : called tr2 (called tr1 w) = called (tr1 ++ tr2) w.
Proof. unfold called; simpl. by rewrite app_assoc. Qed.

Lemma eqb_END_false cur : cur ≠ END → String.eqb cur END = false.
Proof. intros H. by apply String.eqb_neq. Qed.

(** The inner loop stops at the first edge leaving [cur]. *)
Lemma range_edges_first es1 e es2 cur :
  Forall (λ e', From e' ≠ cur) es1 →
  From e = cur →
  range_edges (es1 ++ e :: es2) cur = (To e, true).
Proof.
  intros Hes1 He. induction Hes1 as [|e' es1 Hne _ IH]; simpl.
  - rewrite He. by rewrite String.eqb_refl.
  - apply String.eqb_neq in Hne. by rewrite Hne.
Qed.

(** The inner loop finds nothing when no edge leaves [cur]. *)
Lemma range_edges_none es cur :
  Forall (λ e, From e ≠ cur) es →
  range_edges es cur = (cur, false).
Proof.
  induction 1 as [|e es Hne _ IH]; simpl; [done|].
  apply String.eqb_neq in Hne. by rewrite Hne.
Qed.

(** When the inner loop finds an edge, it is the first one leaving [cur]. *)
Lemma range_edges_found es cur next :
  range_edges es cur = (next, true) →
  ∃ es1 e es2, es = es1 ++ e :: es2 ∧ Forall (λ e', From e' ≠ cur) es1 ∧
               From e = cur ∧ To e = next.
Proof.
  induction es as [|e es IH]; simpl; [done|].
  destruct (String.eqb (From e) cur) eqn:Heq.
  - intros [= <-]. apply String.eqb_eq in Heq.
    exists [], e, es. by repeat split.
  - intros H. destruct (IH H) as (es1 & e0 & es2 & -> & Hall & Hfrom & Hto).
    apply String.eqb_neq in Heq.
    exists (e :: es1), e0, es2. repeat split; auto.
Qed.

(** One round of the loop, read off [iteration]. *)
Lemma Invoke_loop_S n r ctx state cur w G :
  heap w !! graph r = Some G →
  Invoke_loop (S n) r ctx state cur w =
    match iteration G ctx state cur with
    | (_, Continue state' next) => Invoke_loop n r ctx state' next (called [cur] w)
    | (b, Return res) => Normal res (if b then called [cur] w else w)
    end.
Proof.
  intros HG. unfold iteration. simpl.
  unfold mbind, M_bind, load, call, mret, M_ret. simpl. rewrite HG.
  destruct (nodes G !! cur) as [node|]; [|done].
  destruct (Function node ctx state) as [state' [err|]]; [done|].
  destruct (String.eqb cur END); [done|].
  fold (called [cur] w). simpl. rewrite HG.
  by destruct (range_edges (edges G) cur) as [next [|]].
Qed.

(** After [k] rounds that stay in the loop, the rest of the run is the
    loop started from the configuration reached. *)
Lemma Invoke_loop_iterate k n r ctx state cur w G state' cur' tr :
  heap w !! graph r = Some G →
  iterate k G ctx state cur = Some (state', cur', tr) →
  Invoke_loop (k + n) r ctx state cur w = Invoke_loop n r ctx state' cur' (called tr w).
Proof.
  intros HG. revert state cur w tr HG.
  induction k as [|k IH]; intros state cur w tr HG Hit; simpl in Hit.
  - injection Hit as <- <- <-. by rewrite called_nil.
  - replace (S k + n) with (S (k + n)) by lia.
    rewrite (Invoke_loop_S _ _ _ _ _ _ G HG).
    destruct (iteration G ctx state cur) as [b [s1 c1|res]]; [|done].
    destruct (iterate k G ctx s1 c1) as [[[s2 c2] tr2]|] eqn:Hk; [|done].
    injection Hit as <- <- <-.
    rewrite (IH s1 c1 (called [cur] w) tr2); [|done|done].
    by rewrite called_app.
Qed.

(** One more round after [k] rounds. *)
Lemma iterate_snoc k G ctx s0 c0 state cur tr b state' next :
  iterate k G ctx s0 c0 = Some (state, cur, tr) →
  iteration G ctx state cur = (b, Continue state' next) →
  iterate (S k) G ctx s0 c0 = Some (state', next, tr ++ [cur]).
Proof.
  intros Hit Hstep. revert s0 c0 tr Hit.
  induction k as [|k IH]; intros s0 c0 tr Hit; simpl in Hit.
  - injection Hit as -> -> <-. simpl. by rewrite Hstep.
  - change (iterate (S (S k)) G ctx s0 c0)
      with (match iteration G ctx s0 c0 with
            | (_, Continue s1 c1) =>
                match iterate (S k) G ctx s1 c1 with
                | Some (s, c, tr) => Some (s, c, c0 :: tr)
                | None => None
                end
            | (_, Return _) => None
            end).
    destruct (iteration G ctx s0 c0) as [b0 [s1 c1|res]]; [|done].
    destruct (iterate k G ctx s1 c1) as [[[s2 c2] tr2]|] eqn:Hk; [|done].
    injection Hit as -> -> <-.
    by rewrite (IH s1 c1 tr2 Hk).
Qed.

(** [Invoke] is the loop started at the entry point. *)
Lemma Invoke_unfold fuel r ctx messages w G :
  heap w !! graph r = Some G →
  Invoke fuel r ctx messages w = Invoke_loop fuel r ctx messages (entryPoint G) w.
Proof.
  intros HG. unfold Invoke, mbind, M_bind, load. by rewrite HG.
Qed.

(** The run of [Invoke] from a configuration its loop reaches. *)
Lemma Invoke_reach k n r ctx messages w G state cur tr :
  heap w !! graph r = Some G →
  iterate k G ctx messages (entryPoint G) = Some (state, cur, tr) →
  Invoke (k + n) r ctx messages w = Invoke_loop n r ctx state cur (called tr w).
Proof.
  intros HG Hit. rewrite (Invoke_unfold _ _ _ _ _ G HG).
  by apply Invoke_loop_iterate with G.
Qed.

(** ** The builder and [Compile] *)

Lemma perform_after g c w G :
  heap w !! g = Some G →
  perform g c w = Normal tt (updated g (after_call G c) w).
Proof.
  intros HG.
  destruct c; simpl;
    unfold AddNode, AddEdge, SetEntryPoint, mbind, M_bind, load, store;
    rewrite HG; simpl; by rewrite HG.
Qed.

Lemma updated_lookup g G w : heap (updated g G w) !! g = Some G.
Proof. unfold updated; simpl. apply lookup_insert_eq. Qed.

Lemma updated_updated g G1 G2 w :
  updated g G2 (updated g G1 w) = updated g G2 w.
Proof. unfold updated; simpl. by rewrite insert_insert_eq. Qed.

Lemma perform_all_after g cs w G :
  heap w !! g = Some G →
  perform_all g cs w = Normal tt (updated g (foldl after_call G cs) w).
Proof.
  revert w G. induction cs as [|c cs IH]; intros w G HG; simpl.
  - unfold mret, M_ret, updated. destruct w as [h cl]; simpl in *.
    by rewrite insert_id.
  - unfold mbind, M_bind. rewrite (perform_after _ _ _ G HG).
    rewrite (IH _ (after_call G c) (updated_lookup _ _ _)).
    by rewrite updated_updated.
Qed.

(** Calls other than [SetEntryPoint] leave the entry point alone. *)
Lemma entryPoint_foldl_other G cs :
  forallb (λ c, negb (is_SetEntryPoint c)) cs = true →
  entryPoint (foldl after_call G cs) = entryPoint G.
Proof.
  revert G. induction cs as [|c cs IH]; intros G; simpl; [done|].
  intros [Hc Hcs]%andb_prop. rewrite (IH _ Hcs). by destruct c.
Qed.

Lemma Compile_unset g G w :
  heap w !! g = Some G → entryPoint G = EmptyString →
  Compile g w = Normal (None, Some ErrEntryPointNotSet) w.
Proof.
  intros HG He. unfold Compile, mbind, M_bind, load. rewrite HG, He. done.
Qed.

Lemma Compile_set g G w :
  heap w !! g = Some G → entryPoint G ≠ EmptyString →
  Compile g w = Normal (Some {| graph := g |}, None) w.
Proof.
  intros HG He. unfold Compile, mbind, M_bind, load. rewrite HG.
  apply String.eqb_neq in He. by rewrite He.
Qed.

Lemma new_builder_result cs w :
  let g := fresh (dom (heap w)) in
  new_builder cs w =
    Normal g (updated g (foldl after_call
                           {| nodes := ∅; edges := []; entryPoint := EmptyString |} cs) w).
Proof.
  intros g. unfold new_builder, NewMessageGraph, alloc, mbind, M_bind at 1.
  fold g.
  set (G0 := {| nodes := ∅; edges := []; entryPoint := EmptyString |}).
  fold (updated g G0 w). unfold M_bind.
  rewrite (perform_all_after g cs _ G0 (updated_lookup _ _ _)).
  by rewrite updated_updated.
Qed.

(** C4. [Compile] fails with [ErrEntryPointNotSet], returning a nil
    [*Runnable], exactly on a builder that holds no entry point (the
    [entryPoint] field is the empty string, as it is on every builder
    created by [NewMessageGraph] on which [SetEntryPoint] was never
    called); on a builder that holds an entry point it succeeds with a
    [Runnable] on the same object, whatever the nodes and edges are: no
    other validation takes place. *)
Theorem Compile_requires_entry_point :
  (∀ (cs : list BuilderCall) (w : World),
      forallb (λ c, negb (is_SetEntryPoint c)) cs = true →
      value ((g ← new_builder cs; Compile g) w)
      = Some (None, Some ErrEntryPointNotSet))
  ∧ (∀ (g : ptr) (G : MessageGraph) (w : World),
      heap w !! g = Some G → entryPoint G = EmptyString →
      Compile g w = Normal (None, Some ErrEntryPointNotSet) w)
  ∧ (∀ (g : ptr) (G : MessageGraph) (w : World),
      heap w !! g = Some G → entryPoint G ≠ EmptyString →
      Compile g w = Normal (Some {| graph := g |}, None) w)
  ∧ (∀ (cs1 cs2 : list BuilderCall) (name : string) (w : World),
      name ≠ EmptyString →
      forallb (λ c, negb (is_SetEntryPoint c)) cs2 = true →
      value ((g ← new_builder (cs1 ++ CallSetEntryPoint name :: cs2); Compile g) w)
      = Some (Some {| graph := fresh (dom (heap w)) |}, None)).
Proof.
  split; [|split; [|split]].
  - intros cs w Hcs. unfold mbind, M_bind.
    rewrite new_builder_result.
    erewrite Compile_unset; [done|apply updated_lookup|].
    by rewrite entryPoint_foldl_other.
  - apply Compile_unset.
  - apply Compile_set.
  - intros cs1 cs2 name w Hname Hcs2. unfold mbind, M_bind.
    rewrite new_builder_result.
    erewrite Compile_set; [done|apply updated_lookup|].
    rewrite foldl_app. simpl. by rewrite entryPoint_foldl_other.
Qed.

Lemma Compile_requires_entry_point_witness :
  value ((g ← new_builder [CallAddNode "node1" passthrough]; Compile g) empty_world)
  = Some (None, Some ErrEntryPointNotSet)
  ∧ Compile 1%positive
      (world_of {| nodes := ∅; edges := []; entryPoint := EmptyString |})
    = Normal (None, Some ErrEntryPointNotSet)
        (world_of {| nodes := ∅; edges := []; entryPoint := EmptyString |})
  ∧ Compile 1%positive (world_of graph_no_END)
    = Normal (Some r1, None) (world_of graph_no_END)
  ∧ value ((g ← new_builder ([CallAddEdge "a" "b"]
                             ++ CallSetEntryPoint "missing" :: [CallAddEdge "c" "d"]);
            Compile g) empty_world)
    = Some (Some {| graph := fresh (dom (heap empty_world)) |}, None).
Proof.
  destruct Compile_requires_entry_point as (H1 & H2 & H3 & H4).
  split; [|split; [|split]].
  - apply H1. reflexivity.
  - apply (H2 1%positive {| nodes := ∅; edges := []; entryPoint := EmptyString |});
      reflexivity.
  - apply (H3 1%positive graph_no_END); [reflexivity|discriminate].
  - apply H4; [discriminate|reflexivity].
Defined.

(** C10. [SetEntryPoint] with the empty string followed by [Compile]
    returns a nil [*Runnable] and [ErrEntryPointNotSet], whatever the
    builder held before (also when a node is registered under the empty
    name): the outcome is that of compiling a builder just created, and a
    builder whose entry point is the empty string never compiles. *)
Theorem Compile_empty_entry_point (g : ptr) (G : MessageGraph) (w : World) :
  heap w !! g = Some G →
  (SetEntryPoint g EmptyString;; Compile g) w
  = Normal (None, Some ErrEntryPointNotSet)
           (updated g (after_call G (CallSetEntryPoint EmptyString)) w)
  ∧ value ((SetEntryPoint g EmptyString;; Compile g) w)
    = value ((b ← NewMessageGraph; Compile b) w)
  ∧ (∀ r e w', Compile g w = Normal (Some r, e) w' → entryPoint G ≠ EmptyString).
Proof.
  intros HG.
  assert (Hset : (SetEntryPoint g EmptyString;; Compile g) w
                 = Normal (None, Some ErrEntryPointNotSet)
                     (updated g (after_call G (CallSetEntryPoint EmptyString)) w)).
  { unfold mbind, M_bind.
    pose proof (perform_after g (CallSetEntryPoint EmptyString) w G HG) as Hp.
    simpl in Hp. rewrite Hp.
    by erewrite Compile_unset; [|apply updated_lookup|]. }
  split; [exact Hset|split].
  - rewrite Hset. simpl.
    unfold mbind, M_bind, NewMessageGraph, alloc.
    set (G0 := {| nodes := ∅; edges := []; entryPoint := EmptyString |}).
    fold (updated (fresh (dom (heap w))) G0 w).
    by erewrite Compile_unset; [|apply updated_lookup|].
  - intros r e w' Hc He.
    rewrite (Compile_unset g G w HG He) in Hc. discriminate.
Qed.

Lemma Compile_empty_entry_point_witness :
  value ((SetEntryPoint 1%positive EmptyString;; Compile 1%positive)
           (world_of graph_empty_name))
  = Some (None, Some ErrEntryPointNotSet).
Proof.
  destruct (Compile_empty_entry_point 1%positive graph_empty_name
              (world_of graph_empty_name)) as (H & _).
  - reflexivity.
  - rewrite H. reflexivity.
Defined.

(** ** The execution loop *)

(** The iteration that follows the [k] rounds of a run of [Invoke]. *)
Lemma Invoke_last k fuel r ctx messages w G state cur tr :
  heap w !! graph r = Some G →
  iterate k G ctx messages (entryPoint G) = Some (state, cur, tr) →
  k < fuel →
  Invoke fuel r ctx messages w =
    match iteration G ctx state cur with
    | (_, Continue state' next) =>
        Invoke_loop (fuel - S k) r ctx state' next (called (tr ++ [cur]) w)
    | (b, Return res) =>
        Normal res (if b then called (tr ++ [cur]) w else called tr w)
    end.
Proof.
  intros HG Hit Hlt.
  replace fuel with (k + S (fuel - S k)) at 1 by lia.
  rewrite (Invoke_reach _ _ _ _ _ _ G _ _ _ HG Hit).
  rewrite (Invoke_loop_S _ _ _ _ _ _ G); [|done].
  rewrite called_app.
  by destruct (iteration G ctx state cur) as [[|] [s1 c1|res]].
Qed.

(** C5. When the function of the current node returns a non-nil error,
    [Invoke] returns a nil state and an error that wraps the function's
    error and whose text names the node; the call to that function is the
    last one made, whether or not an edge leaves the node. *)
Theorem Invoke_node_error (k fuel : nat) (r : Runnable) (ctx : Context)
    (messages : State) (w : World) (G : MessageGraph)
    (state : State) (cur : string) (tr : list string)
    (node : Node) (state' : State) (err : error) :
  heap w !! graph r = Some G →
  iterate k G ctx messages (entryPoint G) = Some (state, cur, tr) →
  nodes G !! cur = Some node →
  Function node ctx state = (state', Some err) →
  k < fuel →
  Invoke fuel r ctx messages w
  = Normal (nil_slice,
            Some (wrapError ("error in node " +:+ cur +:+ ": " +:+ Error err) err))
           (called (tr ++ [cur]) w).
Proof.
  intros HG Hit Hnode Hfn Hlt.
  rewrite (Invoke_last k fuel r ctx messages w G state cur tr HG Hit Hlt).
  unfold iteration. by rewrite Hnode, Hfn.
Qed.

Lemma Invoke_node_error_witness :
  Invoke 1 r1 Background input_A (world_of graph_node_error)
  = Normal (nil_slice,
            Some (wrapError "error in node node1: node error"
                            (errorString "node error")))
           (called ["node1"] (world_of graph_node_error)).
Proof.
  apply (Invoke_node_error 0 1 r1 Background input_A (world_of graph_node_error)
           graph_node_error input_A "node1" []
           {| Name := "node1"; Function := failing "node error" |} nil_slice
           (errorString "node error"));
    [reflexivity | reflexivity | reflexivity | reflexivity | lia].
Defined.

(** C6. When the cursor of [Invoke] (the entry point, or the target of the
    edge just followed) names no registered node, also when that name is
    [END], [Compile] has succeeded on the graph and [Invoke] returns a nil
    state and an error that wraps [ErrNodeNotFound] and whose text carries
    the name; no function is called for that name. *)
Theorem Invoke_node_not_found (k fuel : nat) (r : Runnable) (ctx : Context)
    (messages : State) (w : World) (G : MessageGraph)
    (state : State) (cur : string) (tr : list string) :
  heap w !! graph r = Some G →
  entryPoint G ≠ EmptyString →
  iterate k G ctx messages (entryPoint G) = Some (state, cur, tr) →
  nodes G !! cur = None →
  k < fuel →
  Compile (graph r) w = Normal (Some r, None) w
  ∧ Invoke fuel r ctx messages w
    = Normal (nil_slice,
              Some (wrapError ("node not found: " +:+ cur) ErrNodeNotFound))
             (called tr w)
  ∧ Is (wrapError ("node not found: " +:+ cur) ErrNodeNotFound) NodeNotFound = true.
Proof.
  intros HG Hentry Hit Hnode Hlt. split; [|split; [|done]].
  - rewrite (Compile_set _ G w HG Hentry). by destruct r.
  - rewrite (Invoke_last k fuel r ctx messages w G state cur tr HG Hit Hlt).
    unfold iteration. by rewrite Hnode.
Qed.

Lemma Invoke_node_not_found_witness :
  Compile (graph r1) (world_of graph_no_END)
  = Normal (Some r1, None) (world_of graph_no_END)
  ∧ Invoke 3 r1 Background input_A (world_of graph_no_END)
    = Normal (nil_slice,
              Some (wrapError ("node not found: " +:+ END) ErrNodeNotFound))
             (called ["node1"; "node2"] (world_of graph_no_END))
  ∧ Is (wrapError ("node not found: " +:+ END) ErrNodeNotFound) NodeNotFound = true.
Proof.
  apply (Invoke_node_not_found 2 3 r1 Background input_A (world_of graph_no_END)
           graph_no_END output_A END ["node1"; "node2"]);
    [reflexivity | discriminate | reflexivity | reflexivity | lia].
Defined.

(** C7. When a node other than [END] has run its function without error
    and no registered edge has that node as its [From], [Invoke] returns a
    nil state and an error that wraps [ErrNoOutgoingEdge] and whose text
    carries the node's name; the node's function has been called. *)
Theorem Invoke_no_outgoing_edge (k fuel : nat) (r : Runnable) (ctx : Context)
    (messages : State) (w : World) (G : MessageGraph)
    (state : State) (cur : string) (tr : list string)
    (node : Node) (state' : State) :
  heap w !! graph r = Some G →
  iterate k G ctx messages (entryPoint G) = Some (state, cur, tr) →
  nodes G !! cur = Some node →
  Function node ctx state = (state', None) →
  cur ≠ END →
  Forall (λ e, From e ≠ cur) (edges G) →
  k < fuel →
  Invoke fuel r ctx messages w
  = Normal (nil_slice,
            Some (wrapError ("no outgoing edge found for node: " +:+ cur)
                            ErrNoOutgoingEdge))
           (called (tr ++ [cur]) w)
  ∧ Is (wrapError ("no outgoing edge found for node: " +:+ cur) ErrNoOutgoingEdge)
       NoOutgoingEdge = true.
Proof.
  intros HG Hit Hnode Hfn Hend Hedges Hlt. split; [|done].
  rewrite (Invoke_last k fuel r ctx messages w G state cur tr HG Hit Hlt).
  unfold iteration. rewrite Hnode, Hfn, (eqb_END_false _ Hend).
  by rewrite (range_edges_none _ _ Hedges).
Qed.

Lemma Invoke_no_outgoing_edge_witness :
  Invoke 1 r1 Background input_A (world_of graph_dead_end)
  = Normal (nil_slice,
            Some (wrapError ("no outgoing edge found for node: " +:+ "node1")
                            ErrNoOutgoingEdge))
           (called ([] ++ ["node1"]) (world_of graph_dead_end))
  ∧ Is (wrapError ("no outgoing edge found for node: " +:+ "node1") ErrNoOutgoingEdge)
       NoOutgoingEdge = true.
Proof.
  apply (Invoke_no_outgoing_edge 0 1 r1 Background input_A (world_of graph_dead_end)
           graph_dead_end input_A "node1" []
           {| Name := "node1"; Function := passthrough |} input_A);
    [reflexivity | reflexivity | reflexivity | reflexivity | discriminate
    | constructor | lia].
Defined.

(** C8. [AddEdge] appends, so the order of [edges] is the order of
    registration; when several edges leave the current node, the node that
    runs next is the [To] of the earliest of them, and what is registered
    after that edge ([es2]) plays no part. *)
Theorem Invoke_first_matching_edge (k : nat) (r : Runnable) (ctx : Context)
    (messages : State) (w : World) (G : MessageGraph)
    (state : State) (cur : string) (tr : list string)
    (node : Node) (state' : State) (es1 es2 : list Edge) (e : Edge) :
  heap w !! graph r = Some G →
  iterate k G ctx messages (entryPoint G) = Some (state, cur, tr) →
  nodes G !! cur = Some node →
  Function node ctx state = (state', None) →
  cur ≠ END →
  edges G = es1 ++ e :: es2 →
  Forall (λ e', From e' ≠ cur) es1 →
  From e = cur →
  (∀ from to, edges (after_call G (CallAddEdge from to))
              = edges G ++ [{| From := from; To := to |}])
  ∧ iterate (S k) G ctx messages (entryPoint G) = Some (state', To e, tr ++ [cur])
  ∧ (∀ n, Invoke (S k + n) r ctx messages w
          = Invoke_loop n r ctx state' (To e) (called (tr ++ [cur]) w)).
Proof.
  intros HG Hit Hnode Hfn Hend Hedges Hes1 He.
  assert (Hstep : iteration G ctx state cur = (true, Continue state' (To e))).
  { unfold iteration. rewrite Hnode, Hfn, (eqb_END_false _ Hend), Hedges.
    by rewrite (range_edges_first es1 e es2 cur Hes1 He). }
  split; [done|split].
  - by apply (iterate_snoc k G ctx messages (entryPoint G) state cur tr true).
  - intros n.
    rewrite (Invoke_last k (S k + n) r ctx messages w G state cur tr HG Hit);
      [|lia].
    rewrite Hstep. f_equal. lia.
Qed.

Lemma Invoke_first_matching_edge_witness :
  iterate 1 graph_two_edges Background input_A (entryPoint graph_two_edges)
  = Some (append input_A (llms.TextParts llms.ChatMessageTypeAI "Node 1"),
          END, ["n1"])
  ∧ value (Invoke 2 r1 Background input_A (world_of graph_two_edges))
    = Some (append (append input_A (llms.TextParts llms.ChatMessageTypeAI "Node 1"))
                   (llms.TextParts llms.ChatMessageTypeAI "done"), None).
Proof.
  destruct (Invoke_first_matching_edge 0 r1 Background input_A
              (world_of graph_two_edges) graph_two_edges input_A "n1" []
              {| Name := "n1"; Function := appendAI "Node 1" |}
              (append input_A (llms.TextParts llms.ChatMessageTypeAI "Node 1"))
              [] [ {| From := "n1"; To := "n2" |}; {| From := END; To := "n1" |} ]
              {| From := "n1"; To := END |}) as (_ & H1 & H2);
    [reflexivity | reflexivity | reflexivity | reflexivity | discriminate
    | reflexivity | constructor | reflexivity |].
  split; [exact H1|].
  etransitivity; [exact (f_equal value (H2 1))|reflexivity].
Defined.

(** C3. When the cursor is [END], that iteration is the last one, whatever
    edges leave [END]: [Invoke] returns within it. When a node is
    registered as [END] and its function succeeds, the function is called
    on the current state and [Invoke] returns the state it produced, with
    a nil error. *)
Theorem Invoke_END_terminal (k fuel : nat) (r : Runnable) (ctx : Context)
    (messages : State) (w : World) (G : MessageGraph)
    (state : State) (tr : list string) :
  heap w !! graph r = Some G →
  iterate k G ctx messages (entryPoint G) = Some (state, END, tr) →
  k < fuel →
  (∃ res w', Invoke fuel r ctx messages w = Normal res w'
             ∧ (w' = called tr w ∨ w' = called (tr ++ [END]) w))
  ∧ (∀ node state',
        nodes G !! END = Some node →
        Function node ctx state = (state', None) →
        Invoke fuel r ctx messages w = Normal (state', None) (called (tr ++ [END]) w)).
Proof.
  intros HG Hit Hlt.
  rewrite (Invoke_last k fuel r ctx messages w G state END tr HG Hit Hlt).
  unfold iteration. split.
  - destruct (nodes G !! END) as [node|]; [|eauto].
    destruct (Function node ctx state) as [s1 [err|]]; eauto.
  - intros node state' Hnode Hfn. by rewrite Hnode, Hfn.
Qed.

Lemma Invoke_END_terminal_witness :
  Invoke 2 r1 Background input_A (world_of graph_two_edges)
  = Normal (append (append input_A (llms.TextParts llms.ChatMessageTypeAI "Node 1"))
                   (llms.TextParts llms.ChatMessageTypeAI "done"), None)
           (called (["n1"] ++ [END]) (world_of graph_two_edges)).
Proof.
  destruct (Invoke_END_terminal 1 2 r1 Background input_A
              (world_of graph_two_edges) graph_two_edges
              (append input_A (llms.TextParts llms.ChatMessageTypeAI "Node 1"))
              ["n1"]) as (_ & H);
    [reflexivity | reflexivity | lia |].
  apply (H {| Name := END; Function := appendAI "done" |}); reflexivity.
Defined.

(** ** Linear runs *)

(** Following the edges to [END] and composing the functions on the way
    gives the run of the loop. *)
Lemma Invoke_loop_follow (n fuel : nat) r ctx w G cur path (s final : State) :
  heap w !! graph r = Some G →
  follow n (edges G) cur = Some path →
  compose G ctx path s = Some final →
  (length path ≤ fuel)%nat →
  Invoke_loop fuel r ctx s cur w = Normal (final, None) (called path w).
Proof.
  intros HG. revert fuel w cur path s HG.
  induction n as [|n IH]; intros fuel w cur path s HG Hfollow Hcomp Hlen;
    simpl in Hfollow; [done|].
  destruct fuel as [|fuel].
  { destruct (String.eqb cur END);
      [injection Hfollow as <-; simpl in Hlen; lia|].
    destruct (range_edges (edges G) cur) as [next [|]]; [|done].
    destruct (follow n (edges G) next); [|done].
    injection Hfollow as <-. simpl in Hlen. lia. }
  rewrite (Invoke_loop_S _ _ _ _ _ _ G HG). unfold iteration.
  destruct (String.eqb cur END) eqn:Hend.
  - injection Hfollow as <-. simpl in Hcomp.
    destruct (nodes G !! cur) as [node|]; [|done].
    destruct (Function node ctx s) as [s1 [err|]]; [done|].
    by injection Hcomp as <-.
  - destruct (range_edges (edges G) cur) as [next [|]]; [|done].
    destruct (follow n (edges G) next) as [p|] eqn:Hp; [|done].
    injection Hfollow as <-. simpl in Hcomp, Hlen.
    destruct (nodes G !! cur) as [node|]; [|done].
    destruct (Function node ctx s) as [s1 [err|]]; [done|].
    rewrite (IH fuel (called [cur] w) next p s1); [|done|done|done|lia].
    by rewrite called_app.
Qed.

(** A run that returns a nil error has followed the edges to [END]. *)
Lemma Invoke_loop_success fuel r ctx w G cur (s final : State) w' :
  heap w !! graph r = Some G →
  Invoke_loop fuel r ctx s cur w = Normal (final, None) w' →
  ∃ path, follow fuel (edges G) cur = Some path
          ∧ compose G ctx path s = Some final
          ∧ w' = called path w.
Proof.
  intros HG. revert w cur s HG.
  induction fuel as [|fuel IH]; intros w cur s HG Hrun; [done|].
  rewrite (Invoke_loop_S _ _ _ _ _ _ G HG) in Hrun. unfold iteration in Hrun.
  simpl. destruct (nodes G !! cur) as [node|] eqn:Hnode; [|done].
  destruct (Function node ctx s) as [s1 [err|]] eqn:Hfn; [done|].
  destruct (String.eqb cur END) eqn:Hend.
  - injection Hrun as <- <-. exists [cur]. simpl. by rewrite Hnode, Hfn.
  - destruct (range_edges (edges G) cur) as [next [|]]; [|done].
    destruct (IH (called [cur] w) next s1 HG Hrun) as (p & Hp & Hcomp & ->).
    exists (cur :: p). simpl. rewrite Hp, Hnode, Hfn.
    by rewrite called_app.
Qed.

(** C1. On a graph of graph/graph.go (all of its edges are static), when
    following the [From -> To] edges from the entry point leads to [END]
    along [path] and the functions of the nodes of [path] succeed one after
    the other, [Invoke] calls exactly the functions of [path], in order,
    and returns their left-to-right composition applied to the initial
    state, with a nil error; every run of [Invoke] that returns a nil
    error is of this form. In scenario A, [Invoke] returns
    [Human "Input"; AI "Node 1"; AI "Node 2"] and a nil error. *)
Theorem Invoke_linear :
  (∀ (n fuel : nat) (r : Runnable) (ctx : Context) (S0 final : State)
     (w : World) (G : MessageGraph) (path : list string),
      heap w !! graph r = Some G →
      follow n (edges G) (entryPoint G) = Some path →
      compose G ctx path S0 = Some final →
      (length path ≤ fuel)%nat →
      Invoke fuel r ctx S0 w = Normal (final, None) (called path w))
  ∧ (∀ (fuel : nat) (r : Runnable) (ctx : Context) (S0 final : State)
       (w w' : World) (G : MessageGraph),
      heap w !! graph r = Some G →
      Invoke fuel r ctx S0 w = Normal (final, None) w' →
      ∃ path, follow fuel (edges G) (entryPoint G) = Some path
              ∧ compose G ctx path S0 = Some final
              ∧ w' = called path w)
  ∧ (∀ fuel : nat, (3 ≤ fuel)%nat →
      run_A fuel empty_world
      = Normal (output_A, None) (called ["n1"; "n2"; END] (world_of graph_A))).
Proof.
  split; [|split].
  - intros n fuel r ctx S0 final w G path HG Hfollow Hcomp Hlen.
    rewrite (Invoke_unfold _ _ _ _ _ G HG).
    by apply Invoke_loop_follow with n G.
  - intros fuel r ctx S0 final w w' G HG Hrun.
    rewrite (Invoke_unfold _ _ _ _ _ G HG) in Hrun.
    by apply Invoke_loop_success with r.
  - intros fuel Hfuel.
    assert (Hb : build_A empty_world = Normal 1%positive (world_of graph_A))
      by (vm_compute; reflexivity).
    unfold run_A, mbind, M_bind. rewrite Hb.
    assert (Hc : Compile 1%positive (world_of graph_A)
                 = Normal (Some r1, None) (world_of graph_A))
      by (vm_compute; reflexivity).
    rewrite Hc.
    rewrite (Invoke_unfold _ _ _ _ _ graph_A); [|reflexivity].
    apply Invoke_loop_follow with 3 graph_A; [reflexivity..|exact Hfuel].
Qed.

Lemma Invoke_linear_witness :
  Invoke 3 r1 Background input_A (world_of graph_A)
  = Normal (output_A, None) (called ["n1"; "n2"; END] (world_of graph_A))
  ∧ ∃ path, follow 5 (edges graph_A) (entryPoint graph_A) = Some path
            ∧ compose graph_A Background path input_A = Some output_A
            ∧ called ["n1"; "n2"; END] (world_of graph_A)
              = called path (world_of graph_A).
Proof.
  destruct Invoke_linear as (H1 & H2 & _).
  split.
  - apply (H1 3 3 r1 Background input_A output_A (world_of graph_A) graph_A
              ["n1"; "n2"; END]); [reflexivity | reflexivity | reflexivity | simpl; lia].
  - apply (H2 5 r1 Background input_A output_A (world_of graph_A)
              (called ["n1"; "n2"; END] (world_of graph_A)) graph_A);
      [reflexivity | vm_compute; reflexivity].
Defined.

(** ** Conditional edges *)

(** The scan stops at the first edge leaving [current]. *)
Lemma resolve_first es1 e es2 ctx state current :
  Forall (λ e', Conditional.From e' ≠ current) es1 →
  Conditional.From e = current →
  Conditional.resolve (es1 ++ e :: es2) ctx state current
  = Some (match Conditional.To e with
          | Conditional.Static to => to
          | Conditional.Routed routingFn => routingFn ctx state
          end).
Proof.
  intros Hes1 He. induction Hes1 as [|e' es1 Hne _ IH]; simpl.
  - rewrite He. by rewrite String.eqb_refl.
  - apply String.eqb_neq in Hne. by rewrite Hne.
Qed.

(** On static edges the scan is the inner loop of graph/graph.go. *)
Lemma resolve_of_static G ctx state current :
  Conditional.resolve (Conditional.edges (of_static G)) ctx state current
  = match range_edges (edges G) current with
    | (next, true) => Some next
    | (_, false) => None
    end.
Proof.
  unfold of_static. simpl. induction (edges G) as [|e es IH]; simpl; [done|].
  by destruct (String.eqb (From e) current).
Qed.

(** On a graph of graph/graph.go the loop of the specification and the
    loop of the code do the same: same result, same calls. *)
Lemma Invoke_loop_of_static fuel r ctx state cur w G :
  heap w !! graph r = Some G →
  Invoke_loop fuel r ctx state cur w
  = match Conditional.Invoke_loop fuel (of_static G) ctx state cur (calls w) with
    | Some (res, visited) => Normal res {| heap := heap w; calls := visited |}
    | None => OutOfFuel
    end.
Proof.
  intros HG. revert state cur w HG.
  induction fuel as [|fuel IH]; intros state cur w HG; [done|].
  rewrite (Invoke_loop_S _ _ _ _ _ _ G HG). unfold iteration.
  cbn [Conditional.Invoke_loop].
  change (Conditional.nodes (of_static G)) with (nodes G).
  destruct (nodes G !! cur) as [node|]; [|by destruct w].
  destruct (Function node ctx state) as [s1 [err|]]; [done|].
  destruct (String.eqb cur END); [done|].
  rewrite resolve_of_static.
  destruct (range_edges (edges G) cur) as [next [|]]; [|done].
  by rewrite (IH s1 next (called [cur] w) HG).
Qed.

(** Scenario B: the run goes node1, calculator, END and returns three
    messages. *)
Lemma Invoke_scenario_B :
  Conditional.Invoke 3 graph_B Background input_B
  = Some (output_B, None, ["node1"; "calculator"; END]).
Proof. vm_compute. reflexivity. Qed.

(** C2. [AddConditionalEdge] appends a conditional edge. When the first
    registered edge that leaves a node is conditional, then after the
    node's function has succeeded the next node is the name the routing
    function returns on the state that function produced, whatever edges
    (static ones from the same node included) were registered after it. *)
Theorem Conditional_routing (n : nat) (G : Conditional.MessageGraph)
    (ctx : Context) (state : State) (from : string) (visited : list string)
    (node : Node) (state' : State) (routingFn : Context -> State -> string)
    (es1 es2 : list Conditional.Edge) :
  Conditional.nodes G !! from = Some node →
  Function node ctx state = (state', None) →
  from ≠ END →
  Conditional.edges G
  = es1 ++ {| Conditional.From := from;
              Conditional.To := Conditional.Routed routingFn |} :: es2 →
  Forall (λ e, Conditional.From e ≠ from) es1 →
  (∀ G0 from0 routingFn0,
      Conditional.edges (Conditional.AddConditionalEdge G0 from0 routingFn0)
      = Conditional.edges G0
        ++ [{| Conditional.From := from0;
               Conditional.To := Conditional.Routed routingFn0 |}])
  ∧ Conditional.resolve (Conditional.edges G) ctx state' from
    = Some (routingFn ctx state')
  ∧ Conditional.Invoke_loop (S n) G ctx state from visited
    = Conditional.Invoke_loop n G ctx state' (routingFn ctx state')
        (visited ++ [from]).
Proof.
  intros Hnode Hfn Hend Hedges Hes1.
  assert (Hres : Conditional.resolve (Conditional.edges G) ctx state' from
                 = Some (routingFn ctx state')).
  { rewrite Hedges. by rewrite (resolve_first es1 _ es2 ctx state' from Hes1). }
  split; [done|split; [done|]].
  cbn [Conditional.Invoke_loop].
  by rewrite Hnode, Hfn, (eqb_END_false _ Hend), Hres.
Qed.

Lemma Conditional_routing_witness :
  Conditional.resolve (Conditional.edges graph_B) Background output_B_1 "node1"
  = Some "calculator"
  ∧ Conditional.Invoke_loop 3 graph_B Background input_B "node1" []
    = Conditional.Invoke_loop 2 graph_B Background output_B_1 "calculator"
        ([] ++ ["node1"]).
Proof.
  destruct (Conditional_routing 2 graph_B Background input_B "node1" []
              {| Name := "node1";
                 Function := appendMsg llms.ChatMessageTypeAI
                                       "function calling: use calculator" |}
              output_B_1 route_B []
              [ {| Conditional.From := "node1";
                   Conditional.To := Conditional.Static "node2" |};
                {| Conditional.From := "node2";
                   Conditional.To := Conditional.Static END |};
                {| Conditional.From := "calculator";
                   Conditional.To := Conditional.Static END |} ])
    as (_ & H1 & H2);
    [reflexivity | reflexivity | discriminate | reflexivity | constructor |].
  split; [exact H1|exact H2].
Defined.

(** ** Further properties of the execution loop *)

(** The loop of [Invoke], read off [run]. *)
Lemma Invoke_loop_run fuel r ctx state cur w G :
  heap w !! graph r = Some G →
  Invoke_loop fuel r ctx state cur w
  = match run fuel G ctx state cur with
    | Some (res, tr) => Normal res (called tr w)
    | None => OutOfFuel
    end.
Proof.
  intros HG. revert state cur w HG.
  induction fuel as [|fuel IH]; intros state cur w HG; [done|].
  rewrite (Invoke_loop_S _ _ _ _ _ _ G HG). simpl.
  destruct (iteration G ctx state cur) as [b [s1 c1|res]].
  - rewrite (IH s1 c1 (called [cur] w) HG).
    destruct (run fuel G ctx s1 c1) as [[res tr]|]; [|done].
    by rewrite called_app.
  - destruct b; [done|]. by rewrite called_nil.
Qed.

Lemma Invoke_run fuel r ctx messages w G :
  heap w !! graph r = Some G →
  Invoke fuel r ctx messages w
  = match run fuel G ctx messages (entryPoint G) with
    | Some (res, tr) => Normal res (called tr w)
    | None => OutOfFuel
    end.
Proof.
  intros HG. rewrite (Invoke_unfold _ _ _ _ _ G HG).
  by apply Invoke_loop_run.
Qed.

(** A run that returns a nil error has called the function registered as
    [END] last. *)
Lemma run_success_END fuel G ctx state cur final tr :
  run fuel G ctx state cur = Some (final, None, tr) →
  is_Some (nodes G !! END) ∧ ∃ tr', tr = tr' ++ [END].
Proof.
  revert state cur tr.
  induction fuel as [|fuel IH]; intros state cur tr Hrun; [done|].
  simpl in Hrun. unfold iteration in Hrun.
  destruct (nodes G !! cur) as [nd|] eqn:Hnode; [|done].
  destruct (Function nd ctx state) as [s1 [err|]]; [done|].
  destruct (String.eqb cur END) eqn:Hend.
  - apply String.eqb_eq in Hend. subst cur.
    injection Hrun as <- <-. split; [by exists nd|by exists []].
  - destruct (range_edges (edges G) cur) as [next [|]]; [|done].
    destruct (run fuel G ctx s1 next) as [[res tr1]|] eqn:Hnext; [|done].
    injection Hrun as -> <-.
    destruct (IH s1 next tr1 Hnext) as (Hreg & tr' & ->).
    split; [done|]. by exists (cur :: tr').
Qed.

(** X2. [Invoke] returns a nil error only by way of [END]: a node is then
    registered under the name [END] and its function is the last one
    called. On a graph with no node registered as [END], every [Invoke]
    that returns, returns an error. *)
Theorem Invoke_success_through_END (fuel : nat) (r : Runnable) (ctx : Context)
    (messages : State) (w w' : World) (G : MessageGraph)
    (final : State) (err : option error) :
  heap w !! graph r = Some G →
  Invoke fuel r ctx messages w = Normal (final, err) w' →
  (err = None →
     is_Some (nodes G !! END) ∧ ∃ tr, w' = called (tr ++ [END]) w)
  ∧ (nodes G !! END = None → is_Some err ∧ final = nil_slice).
Proof.
  intros HG Hrun. rewrite (Invoke_run _ _ _ _ _ G HG) in Hrun.
  destruct (run fuel G ctx messages (entryPoint G)) as [[res tr]|] eqn:Hr; [|done].
  injection Hrun as -> <-.
  assert (Hnil : err = None →
                 is_Some (nodes G !! END) ∧ ∃ tr', tr = tr' ++ [END]).
  { intros ->. by apply run_success_END with fuel ctx messages (entryPoint G) final. }
  split.
  - intros He. destruct (Hnil He) as (Hreg & tr' & ->). split; [done|by exists tr'].
  - intros HEND. destruct err as [e|].
    + split; [by exists e|].
      clear Hnil. revert Hr. generalize (entryPoint G) as cur.
      revert messages tr.
      induction fuel as [|fuel IH]; intros messages tr cur Hr; [done|].
      simpl in Hr. unfold iteration in Hr.
      destruct (nodes G !! cur) as [nd|]; [|by injection Hr as <- _].
      destruct (Function nd ctx messages) as [s1 [e1|]]; [by injection Hr as <- _|].
      destruct (String.eqb cur END); [done|].
      destruct (range_edges (edges G) cur) as [next [|]]; [|by injection Hr as <- _].
      destruct (run fuel G ctx s1 next) as [[res tr1]|] eqn:Hnext; [|done].
      injection Hr as -> _. by apply (IH s1 tr1 next).
    + destruct (Hnil eq_refl) as ([nd Hnd] & _). by rewrite HEND in Hnd.
Qed.

Lemma Invoke_success_through_END_witness :
  is_Some (nodes graph_A !! END)
  ∧ ∃ tr, called ["n1"; "n2"; END] (world_of graph_A)
          = called (tr ++ [END]) (world_of graph_A).
Proof.
  destruct (Invoke_success_through_END 3 r1 Background input_A (world_of graph_A)
              (called ["n1"; "n2"; END] (world_of graph_A)) graph_A output_A None)
    as (H & _); [reflexivity | vm_compute; reflexivity |].
  apply H. reflexivity.
Defined.

Lemma range_edges_not_found es cur next :
  range_edges es cur = (next, false) →
  Forall (λ e, From e ≠ cur) es.
Proof.
  induction es as [|e es IH]; simpl; [constructor|].
  destruct (String.eqb (From e) cur) eqn:Heq; [done|].
  intros H. constructor; [by apply String.eqb_neq|by apply IH].
Qed.

(** The three ways in which a run ends with an error. *)
Lemma run_error fuel G ctx state cur s e tr :
  run fuel G ctx state cur = Some (s, Some e, tr) →
  s = nil_slice ∧
  ∃ name,
    (nodes G !! name = None
     ∧ e = wrapError ("node not found: " +:+ name) ErrNodeNotFound)
    ∨ (name ≠ END ∧ is_Some (nodes G !! name)
       ∧ Forall (λ ed, From ed ≠ name) (edges G)
       ∧ e = wrapError ("no outgoing edge found for node: " +:+ name)
                       ErrNoOutgoingEdge)
    ∨ (∃ nd s0 s1 err,
          nodes G !! name = Some nd
          ∧ Function nd ctx s0 = (s1, Some err)
          ∧ e = wrapError ("error in node " +:+ name +:+ ": " +:+ Error err) err).
Proof.
  revert state cur tr.
  induction fuel as [|fuel IH]; intros state cur tr Hrun; [done|].
  simpl in Hrun. unfold iteration in Hrun.
  destruct (nodes G !! cur) as [nd|] eqn:Hnode.
  - destruct (Function nd ctx state) as [s1 [err|]] eqn:Hfn.
    + injection Hrun as <- <- _. split; [done|].
      exists cur. right. right. by exists nd, state, s1, err.
    + destruct (String.eqb cur END) eqn:Hend; [done|].
      destruct (range_edges (edges G) cur) as [next [|]] eqn:Hedges.
      * destruct (run fuel G ctx s1 next) as [[res tr1]|] eqn:Hnext; [|done].
        injection Hrun as -> _. by apply (IH s1 next tr1).
      * injection Hrun as <- <- _. split; [done|].
        exists cur. right. left. repeat split.
        -- by apply String.eqb_neq.
        -- by exists nd.
        -- by apply range_edges_not_found with next.
  - injection Hrun as <- <- _. split; [done|]. exists cur. by left.
Qed.

(** X3. Whenever [Invoke] returns an error, the state it returns is nil
    and the error is of one of three kinds: it wraps [ErrNodeNotFound] and
    names a node that is not registered; or it wraps [ErrNoOutgoingEdge]
    and names a registered node, other than [END], that no edge leaves; or
    it wraps the error a registered node's function returned, with that
    node's name in its text. *)
Theorem Invoke_error_kinds (fuel : nat) (r : Runnable) (ctx : Context)
    (messages : State) (w w' : World) (G : MessageGraph)
    (s : State) (e : error) :
  heap w !! graph r = Some G →
  Invoke fuel r ctx messages w = Normal (s, Some e) w' →
  s = nil_slice ∧
  ∃ name,
    (nodes G !! name = None
     ∧ e = wrapError ("node not found: " +:+ name) ErrNodeNotFound)
    ∨ (name ≠ END ∧ is_Some (nodes G !! name)
       ∧ Forall (λ ed, From ed ≠ name) (edges G)
       ∧ e = wrapError ("no outgoing edge found for node: " +:+ name)
                       ErrNoOutgoingEdge)
    ∨ (∃ nd s0 s1 err,
          nodes G !! name = Some nd
          ∧ Function nd ctx s0 = (s1, Some err)
          ∧ e = wrapError ("error in node " +:+ name +:+ ": " +:+ Error err) err).
Proof.
  intros HG Hrun. rewrite (Invoke_run _ _ _ _ _ G HG) in Hrun.
  destruct (run fuel G ctx messages (entryPoint G)) as [[res tr]|] eqn:Hr; [|done].
  injection Hrun as -> _.
  by apply run_error with fuel messages (entryPoint G) tr.
Qed.

Lemma Invoke_error_kinds_witness :
  @nil_slice llms.MessageContent = nil_slice ∧
  ∃ name,
    (nodes graph_node_error !! name = None
     ∧ wrapError "error in node node1: node error" (errorString "node error")
       = wrapError ("node not found: " +:+ name) ErrNodeNotFound)
    ∨ (name ≠ END ∧ is_Some (nodes graph_node_error !! name)
       ∧ Forall (λ ed, From ed ≠ name) (edges graph_node_error)
       ∧ wrapError "error in node node1: node error" (errorString "node error")
         = wrapError ("no outgoing edge found for node: " +:+ name)
                     ErrNoOutgoingEdge)
    ∨ (∃ nd s0 s1 err,
          nodes graph_node_error !! name = Some nd
          ∧ Function nd Background s0 = (s1, Some err)
          ∧ wrapError "error in node node1: node error" (errorString "node error")
            = wrapError ("error in node " +:+ name +:+ ": " +:+ Error err) err).
Proof.
  apply (Invoke_error_kinds 1 r1 Background input_A (world_of graph_node_error)
           (called ["node1"] (world_of graph_node_error)) graph_node_error);
    [reflexivity | vm_compute; reflexivity].
Defined.

(** The loop hands the context on and does nothing else with it. *)
Lemma run_context fuel G ctx1 ctx2 state cur :
  (∀ name nd s, nodes G !! name = Some nd →
                Function nd ctx1 s = Function nd ctx2 s) →
  run fuel G ctx1 state cur = run fuel G ctx2 state cur.
Proof.
  intros Hfn. revert state cur.
  induction fuel as [|fuel IH]; intros state cur; [done|].
  simpl. unfold iteration.
  destruct (nodes G !! cur) as [nd|] eqn:Hnode; [|done].
  rewrite (Hfn cur nd state Hnode).
  destruct (Function nd ctx2 state) as [s1 [err|]]; [done|].
  destruct (String.eqb cur END); [done|].
  destruct (range_edges (edges G) cur) as [next [|]]; [|done].
  by rewrite IH.
Qed.

(** X4. [Invoke] only passes the context on to the node functions: two
    contexts between which no registered node function tells the
    difference give the same run (same result, same calls). *)
Theorem Invoke_context_passed_on (fuel : nat) (r : Runnable)
    (ctx1 ctx2 : Context) (messages : State) (w : World) (G : MessageGraph) :
  heap w !! graph r = Some G →
  (∀ name nd s, nodes G !! name = Some nd →
                Function nd ctx1 s = Function nd ctx2 s) →
  Invoke fuel r ctx1 messages w = Invoke fuel r ctx2 messages w.
Proof.
  intros HG Hfn. rewrite !(Invoke_run _ _ _ _ _ G HG).
  by rewrite (run_context fuel G ctx1 ctx2 messages (entryPoint G) Hfn).
Qed.

Lemma Invoke_context_passed_on_witness :
  Invoke 3 r1 Background input_A (world_of graph_A)
  = Invoke 3 r1 (WithValue Background "user" "alice") input_A (world_of graph_A).
Proof.
  apply (Invoke_context_passed_on 3 r1 Background
           (WithValue Background "user" "alice") input_A (world_of graph_A) graph_A);
    [reflexivity|].
  intros name nd s. unfold graph_A. cbn [nodes list_to_map foldr uncurry node].
  intros H.
  apply lookup_insert_Some in H as [[_ <-]|[_ H]]; [reflexivity|].
  apply lookup_insert_Some in H as [[_ <-]|[_ H]]; [reflexivity|].
  apply lookup_insert_Some in H as [[_ <-]|[_ H]]; [reflexivity|].
  by rewrite lookup_empty in H.
Defined.

(** ** Edges that can never be followed *)

(** An edge appended after an edge from the same node changes nothing in
    what the inner loop finds. *)
Lemma range_edges_shadowed es from to cur :
  Exists (λ e, From e = from) es →
  range_edges (es ++ [{| From := from; To := to |}]) cur = range_edges es cur.
Proof.
  induction es as [|e es IH]; intros Hex; [by apply Exists_nil in Hex|].
  simpl. destruct (String.eqb (From e) cur) eqn:Heq; [done|].
  apply Exists_cons in Hex as [Hhere|Hlater]; [|by apply IH].
  apply String.eqb_neq in Heq. subst from.
  clear IH. induction es as [|e' es IH]; simpl.
  - apply String.eqb_neq in Heq. by rewrite Heq.
  - destruct (String.eqb (From e') cur); [done|apply IH].
Qed.

Lemma run_shadowed fuel G from to ctx state cur :
  Exists (λ e, From e = from) (edges G) →
  run fuel (after_call G (CallAddEdge from to)) ctx state cur
  = run fuel G ctx state cur.
Proof.
  intros Hex. revert state cur.
  induction fuel as [|fuel IH]; intros state cur; [done|].
  simpl. unfold iteration. simpl.
  rewrite (range_edges_shadowed _ from to cur Hex).
  destruct (nodes G !! cur) as [nd|]; [|done].
  destruct (Function nd ctx state) as [s1 [err|]]; [done|].
  destruct (String.eqb cur END); [done|].
  destruct (range_edges (edges G) cur) as [next [|]]; [|done].
  by rewrite IH.
Qed.

(** X5. [AddEdge(from, to)] on a builder that already has an edge from
    [from] succeeds and keeps the new edge in the list, but no [Invoke]
    ever follows it: every run returns what it returned before, after the
    same calls. *)
Theorem AddEdge_shadowed (g : ptr) (G : MessageGraph) (w : World)
    (from to : string) :
  heap w !! g = Some G →
  Exists (λ e, From e = from) (edges G) →
  AddEdge g from to w
  = Normal tt (updated g (after_call G (CallAddEdge from to)) w)
  ∧ edges (after_call G (CallAddEdge from to))
    = edges G ++ [{| From := from; To := to |}]
  ∧ (∀ fuel ctx messages,
        observe (Invoke fuel {| graph := g |} ctx messages
                   (updated g (after_call G (CallAddEdge from to)) w))
        = observe (Invoke fuel {| graph := g |} ctx messages w)).
Proof.
  intros HG Hex. split; [|split; [done|]].
  - exact (perform_after g (CallAddEdge from to) w G HG).
  - intros fuel ctx messages.
    rewrite (Invoke_run _ _ _ _ _ (after_call G (CallAddEdge from to)));
      [|apply updated_lookup].
    rewrite (Invoke_run _ _ _ _ _ G); [|done].
    change (entryPoint (after_call G (CallAddEdge from to))) with (entryPoint G).
    rewrite (run_shadowed _ _ _ _ _ _ _ Hex).
    by destruct (run fuel G ctx messages (entryPoint G)) as [[res tr]|].
Qed.

Lemma AddEdge_shadowed_witness :
  AddEdge 1%positive "n1" END (world_of graph_A)
  = Normal tt (updated 1%positive (after_call graph_A (CallAddEdge "n1" END))
                 (world_of graph_A))
  ∧ observe (Invoke 3 r1 Background input_A
               (updated 1%positive (after_call graph_A (CallAddEdge "n1" END))
                  (world_of graph_A)))
    = observe (Invoke 3 r1 Background input_A (world_of graph_A)).
Proof.
  destruct (AddEdge_shadowed 1%positive graph_A (world_of graph_A) "n1" END)
    as (H1 & _ & H2);
    [reflexivity | apply Exists_cons_hd; reflexivity |].
  split; [exact H1|apply H2].
Defined.

(** ** What a builder holds after a sequence of calls *)

Lemma nodes_foldl_other G cs name :
  forallb (λ c, negb (is_AddNode name c)) cs = true →
  nodes (foldl after_call G cs) !! name = nodes G !! name.
Proof.
  revert G. induction cs as [|c cs IH]; intros G; simpl; [done|].
  intros [Hc Hcs]%andb_prop. rewrite (IH _ Hcs).
  destruct c as [n fn| |]; simpl in *; [|done|done].
  apply negb_true_iff, String.eqb_neq in Hc. by rewrite lookup_insert_ne.
Qed.

Lemma Name_foldl G cs :
  (∀ name nd, nodes G !! name = Some nd → Name nd = name) →
  ∀ name nd, nodes (foldl after_call G cs) !! name = Some nd → Name nd = name.
Proof.
  revert G. induction cs as [|c cs IH]; intros G HG; simpl; [done|].
  apply IH. destruct c as [n fn| |]; simpl; [|done|done].
  intros name nd [[<- <-]|[_ H]]%lookup_insert_Some; [done|by apply HG].
Qed.

Lemma edges_foldl G cs :
  edges (foldl after_call G cs) = edges G ++ omap edge_of_call cs.
Proof.
  revert G. induction cs as [|c cs IH]; intros G; simpl.
  - by rewrite app_nil_r.
  - rewrite IH. destruct c; simpl; [done| |done]. by rewrite <- app_assoc.
Qed.

(** X6. On a builder made by [NewMessageGraph], the node map holds, for
    each name, the function of the last [AddNode] call with that name
    (registering a name again replaces the earlier function, without an
    error), and nothing for a name never registered; the [Name] field of
    every node is the key it is stored under. *)
Theorem AddNode_last_wins :
  (∀ (cs1 cs2 : list BuilderCall) (name : string)
     (fn : Context -> State -> State * option error) (w : World),
      forallb (λ c, negb (is_AddNode name c)) cs2 = true →
      ∃ g G w', new_builder (cs1 ++ CallAddNode name fn :: cs2) w = Normal g w'
                ∧ heap w' !! g = Some G
                ∧ nodes G !! name = Some {| Name := name; Function := fn |})
  ∧ (∀ (cs : list BuilderCall) (name : string) (w : World),
      forallb (λ c, negb (is_AddNode name c)) cs = true →
      ∃ g G w', new_builder cs w = Normal g w'
                ∧ heap w' !! g = Some G
                ∧ nodes G !! name = None)
  ∧ (∀ (cs : list BuilderCall) (w : World),
      ∃ g G w', new_builder cs w = Normal g w'
                ∧ heap w' !! g = Some G
                ∧ ∀ name nd, nodes G !! name = Some nd → Name nd = name).
Proof.
  split; [|split].
  - intros cs1 cs2 name fn w Hcs2.
    eexists _, _, _. split; [apply new_builder_result|].
    split; [apply updated_lookup|].
    rewrite foldl_app. simpl. rewrite (nodes_foldl_other _ _ _ Hcs2). simpl.
    apply lookup_insert_eq.
  - intros cs name w Hcs.
    eexists _, _, _. split; [apply new_builder_result|].
    split; [apply updated_lookup|].
    by rewrite (nodes_foldl_other _ _ _ Hcs).
  - intros cs w.
    eexists _, _, _. split; [apply new_builder_result|].
    split; [apply updated_lookup|].
    apply Name_foldl. intros name nd H. simpl in H. by rewrite lookup_empty in H.
Qed.

Lemma AddNode_last_wins_witness :
  (∃ g G w',
      new_builder ([CallAddNode "a" passthrough]
                   ++ CallAddNode "a" (failing "second") :: [CallAddEdge "a" END])
        empty_world = Normal g w'
      ∧ heap w' !! g = Some G
      ∧ nodes G !! "a" = Some {| Name := "a"; Function := failing "second" |})
  ∧ (∃ g G w',
        new_builder [CallAddNode "a" passthrough] empty_world = Normal g w'
        ∧ heap w' !! g = Some G
        ∧ nodes G !! "b" = None).
Proof.
  destruct AddNode_last_wins as (H1 & H2 & _).
  split.
  - apply H1. reflexivity.
  - apply H2. reflexivity.
Defined.

(** X7. On a builder made by [NewMessageGraph], the edge list is the list
    of the [AddEdge] calls, in the order in which they were made, repeated
    and dangling edges included; [AddNode] and [SetEntryPoint] do not
    touch it, and no builder call fails. *)
Theorem AddEdge_registration_order (cs : list BuilderCall) (w : World) :
  ∃ g G w', new_builder cs w = Normal g w'
            ∧ heap w' !! g = Some G
            ∧ edges G = omap edge_of_call cs.
Proof.
  eexists _, _, _. split; [apply new_builder_result|].
  split; [apply updated_lookup|].
  by rewrite edges_foldl.
Qed.

(** X8. [SetEntryPoint] overwrites: on a builder made by
    [NewMessageGraph], the entry point is the name given to the last
    [SetEntryPoint] call, whether or not a node of that name exists. *)
Theorem SetEntryPoint_last_wins (cs1 cs2 : list BuilderCall) (name : string)
    (w : World) :
  forallb (λ c, negb (is_SetEntryPoint c)) cs2 = true →
  ∃ g G w', new_builder (cs1 ++ CallSetEntryPoint name :: cs2) w = Normal g w'
            ∧ heap w' !! g = Some G
            ∧ entryPoint G = name.
Proof.
  intros Hcs2.
  eexists _, _, _. split; [apply new_builder_result|].
  split; [apply updated_lookup|].
  rewrite foldl_app. simpl. by rewrite (entryPoint_foldl_other _ _ Hcs2).
Qed.

Lemma SetEntryPoint_last_wins_witness :
  ∃ g G w',
    new_builder ([CallSetEntryPoint "first"]
                 ++ CallSetEntryPoint "second" :: [CallAddNode "first" passthrough])
      empty_world = Normal g w'
    ∧ heap w' !! g = Some G
    ∧ entryPoint G = "second".
Proof.
  apply (SetEntryPoint_last_wins [CallSetEntryPoint "first"]
           [CallAddNode "first" passthrough] "second" empty_world).
  reflexivity.
Defined.

(** ** Builders as objects *)

(** X9. Builders are separate objects: calls on two different builders
    commute, each call changes the object it is made on and no other, and
    [NewMessageGraph] gives an object that was not there before and leaves
    the existing ones as they are. *)
Theorem builders_independent (g1 g2 : ptr) (G1 G2 : MessageGraph)
    (c1 c2 : BuilderCall) (w : World) :
  g1 ≠ g2 →
  heap w !! g1 = Some G1 →
  heap w !! g2 = Some G2 →
  (perform g1 c1;; perform g2 c2) w = (perform g2 c2;; perform g1 c1) w
  ∧ (∃ w', (perform g1 c1;; perform g2 c2) w = Normal tt w'
           ∧ heap w' !! g1 = Some (after_call G1 c1)
           ∧ heap w' !! g2 = Some (after_call G2 c2)
           ∧ ∀ g, g ≠ g1 → g ≠ g2 → heap w' !! g = heap w !! g)
  ∧ (∃ g w', NewMessageGraph w = Normal g w'
             ∧ heap w !! g = None
             ∧ ∀ g', g' ≠ g → heap w' !! g' = heap w !! g').
Proof.
  intros Hne HG1 HG2.
  assert (H12 : (perform g1 c1;; perform g2 c2) w
                = Normal tt (updated g2 (after_call G2 c2)
                               (updated g1 (after_call G1 c1) w))).
  { unfold mbind, M_bind. rewrite (perform_after g1 c1 w G1 HG1).
    apply perform_after. unfold updated; simpl. by rewrite lookup_insert_ne. }
  assert (H21 : (perform g2 c2;; perform g1 c1) w
                = Normal tt (updated g1 (after_call G1 c1)
                               (updated g2 (after_call G2 c2) w))).
  { unfold mbind, M_bind. rewrite (perform_after g2 c2 w G2 HG2).
    apply perform_after. unfold updated; simpl. by rewrite lookup_insert_ne. }
  split; [|split].
  - rewrite H12, H21. unfold updated; simpl. f_equal. f_equal.
    by apply insert_insert_ne.
  - eexists. split; [exact H12|]. unfold updated; simpl.
    split; [|split].
    + rewrite lookup_insert_ne; [|done]. apply lookup_insert_eq.
    + apply lookup_insert_eq.
    + intros g Hg1 Hg2. by rewrite !lookup_insert_ne.
  - unfold NewMessageGraph, alloc. eexists _, _. split; [done|]. simpl.
    split.
    + apply not_elem_of_dom. apply is_fresh.
    + intros g' Hg'. by rewrite lookup_insert_ne.
Qed.

Lemma builders_independent_witness :
  (perform 1%positive (CallAddEdge "n2" "n1");;
   perform 2%positive (CallAddNode END passthrough)) world_two
  = (perform 2%positive (CallAddNode END passthrough);;
     perform 1%positive (CallAddEdge "n2" "n1")) world_two.
Proof.
  destruct (builders_independent 1%positive 2%positive graph_A graph_dead_end
              (CallAddEdge "n2" "n1") (CallAddNode END passthrough) world_two)
    as (H & _); [discriminate | reflexivity | reflexivity |].
  exact H.
Defined.

(** X10. A [Runnable] is the builder it was compiled from, not a copy of
    it: a builder call made after [Compile] changes the graph the
    [Runnable] runs, and compiling before or after a call of [AddNode] or
    [AddEdge] gives the same result. *)
Theorem Compile_keeps_builder (g : ptr) (G : MessageGraph) (c : BuilderCall)
    (w : World) :
  heap w !! g = Some G →
  (∀ r e, Compile g w = Normal (Some r, e) w →
          perform g c w = Normal tt (updated g (after_call G c) w)
          ∧ ∀ fuel ctx messages,
              Invoke fuel r ctx messages (updated g (after_call G c) w)
              = match run fuel (after_call G c) ctx messages
                          (entryPoint (after_call G c)) with
                | Some (res, tr) =>
                    Normal res (called tr (updated g (after_call G c) w))
                | None => OutOfFuel
                end)
  ∧ (is_SetEntryPoint c = false →
     (x ← Compile g; perform g c;; mret x) w = (perform g c;; Compile g) w).
Proof.
  intros HG. split.
  - intros r e Hc. split; [by apply perform_after|].
    intros fuel ctx messages. apply Invoke_run.
    assert (Hr : graph r = g).
    { unfold Compile, mbind, M_bind, load in Hc. rewrite HG in Hc.
      destruct (String.eqb (entryPoint G) EmptyString); [done|].
      by injection Hc as <- _. }
    rewrite Hr. apply updated_lookup.
  - intros Hc.
    assert (He : entryPoint (after_call G c) = entryPoint G) by by destruct c.
    unfold mbind at 1 3. unfold M_bind.
    rewrite (perform_after g c w G HG).
    destruct (String.eqb (entryPoint G) EmptyString) eqn:Hempty.
    + apply String.eqb_eq in Hempty.
      rewrite (Compile_unset g G w HG Hempty).
      rewrite (Compile_unset g (after_call G c) _ (updated_lookup _ _ _));
        [|by rewrite He].
      unfold mbind, M_bind. by rewrite (perform_after g c w G HG).
    + apply String.eqb_neq in Hempty.
      rewrite (Compile_set g G w HG Hempty).
      rewrite (Compile_set g (after_call G c) _ (updated_lookup _ _ _));
        [|by rewrite He].
      unfold mbind, M_bind. by rewrite (perform_after g c w G HG).
Qed.

Lemma Compile_keeps_builder_witness :
  value (Invoke 3 r1 Background input_A (world_of graph_no_END))
  = Some (nil_slice, Some (Errorf_w_s ErrNodeNotFound END))
  ∧ value (Invoke 3 r1 Background input_A
             (updated 1%positive
                (after_call graph_no_END (CallAddNode END passthrough))
                (world_of graph_no_END)))
    = Some (output_A, None).
Proof.
  split; [vm_compute; reflexivity|].
  destruct (Compile_keeps_builder 1%positive graph_no_END
              (CallAddNode END passthrough) (world_of graph_no_END))
    as (H & _); [reflexivity|].
  destruct (H r1 None) as (_ & Hrun); [vm_compute; reflexivity|].
  rewrite Hrun. vm_compute. reflexivity.
Defined.

(** ** The earlier version and the current one *)

Lemma Legacy_Invoke_loop_sim fuel r ctx state cur w G :
  heap w !! graph r = Some G →
  legacy_sim (Invoke_loop fuel r ctx state cur w)
             (Legacy.Invoke_loop fuel r ctx state cur w).
Proof.
  intros HG. revert state cur w HG.
  induction fuel as [|fuel IH]; intros state cur w HG; [done|].
  simpl. unfold mbind, M_bind, load, call, mret, M_ret. simpl. rewrite HG.
  destruct (nodes G !! cur) as [nd|].
  - destruct (Function nd ctx state) as [s1 [err|]].
    + simpl. split; [done|]. split; [done|]. simpl. right. by exists cur.
    + destruct (String.eqb cur END); [by simpl|].
      simpl. rewrite HG.
      destruct (range_edges (edges G) cur) as [next [|]].
      * by apply IH.
      * simpl. split; [done|]. split; [done|]. simpl. left.
        by exists NoOutgoingEdge, cur.
  - simpl. split; [done|]. split; [done|]. simpl. left.
    by exists NodeNotFound, cur.
Qed.

(** X11. The earlier [graph.go] and the current one behave alike: on the
    same input their [Invoke] make the same calls and both return, with
    the same state, or both do not; they fail together, the earlier
    version with the same text and no wrapped sentinel for a missing node
    or a missing edge, and with the node's own error where the current one
    wraps it. Their [Compile] succeed together and fail with the same
    text. *)
Theorem Legacy_agrees (fuel : nat) (r : Runnable) (ctx : Context)
    (messages : State) (w : World) (G : MessageGraph) :
  heap w !! graph r = Some G →
  legacy_sim (Invoke fuel r ctx messages w) (Legacy.Invoke fuel r ctx messages w)
  ∧ Legacy.Compile (graph r) w
    = match Compile (graph r) w with
      | Normal (c, e) w' => Normal (c, (λ e, errorString (Error e)) <$> e) w'
      | Panic => Panic
      | OutOfFuel => OutOfFuel
      end.
Proof.
  intros HG. split.
  - unfold Invoke, Legacy.Invoke, mbind, M_bind, load. rewrite HG.
    by apply Legacy_Invoke_loop_sim with G.
  - unfold Compile, Legacy.Compile, mbind, M_bind, load. rewrite HG.
    by destruct (String.eqb (entryPoint G) EmptyString).
Qed.

Lemma Legacy_agrees_witness :
  Legacy.Invoke 1 r1 Background input_A (world_of graph_node_error)
  = Normal (nil_slice, Some (errorString "node error"))
           (called ["node1"] (world_of graph_node_error))
  ∧ legacy_sim (Invoke 1 r1 Background input_A (world_of graph_node_error))
               (Legacy.Invoke 1 r1 Background input_A (world_of graph_node_error)).
Proof.
  split; [vm_compute; reflexivity|].
  apply (Legacy_agrees 1 r1 Background input_A (world_of graph_node_error)
           graph_node_error).
  reflexivity.
Defined.

(** ** The calls of a run *)

Lemma run_linked fuel G ctx state cur res tr :
  run fuel G ctx state cur = Some (res, tr) →
  linked (edges G) cur tr ∧ Forall (λ name, is_Some (nodes G !! name)) tr.
Proof.
  revert state cur tr.
  induction fuel as [|fuel IH]; intros state cur tr Hrun; [done|].
  simpl in Hrun. unfold iteration in Hrun.
  destruct (nodes G !! cur) as [nd|] eqn:Hnode;
    [|injection Hrun as _ <-; by split].
  assert (Hone : linked (edges G) cur [cur]
                 ∧ Forall (λ name, is_Some (nodes G !! name)) [cur]).
  { split; [split; [done|by left]|]. constructor; [by exists nd|constructor]. }
  destruct (Function nd ctx state) as [s1 [err|]];
    [by injection Hrun as _ <-|].
  destruct (String.eqb cur END) eqn:Hend; [by injection Hrun as _ <-|].
  destruct (range_edges (edges G) cur) as [next [|]] eqn:Hedges;
    [|by injection Hrun as _ <-].
  destruct (run fuel G ctx s1 next) as [[res1 tr1]|] eqn:Hnext; [|done].
  injection Hrun as -> <-.
  destruct (IH s1 next tr1 Hnext) as (Hl & Hreg).
  split.
  - split; [done|]. right. split; [by apply String.eqb_neq|by exists next].
  - constructor; [by exists nd|done].
Qed.

(** X12. Whatever [Invoke] returns, the node functions it has called form
    a chain: the first is the entry point's, each following one is that of
    the target of the first registered edge leaving the previous node, no
    node before the last is [END], and every node called is registered. *)
Theorem Invoke_calls_follow_edges (fuel : nat) (r : Runnable) (ctx : Context)
    (messages : State) (w w' : World) (G : MessageGraph)
    (res : State * option error) :
  heap w !! graph r = Some G →
  Invoke fuel r ctx messages w = Normal res w' →
  ∃ tr, w' = called tr w
        ∧ linked (edges G) (entryPoint G) tr
        ∧ Forall (λ name, is_Some (nodes G !! name)) tr.
Proof.
  intros HG Hrun. rewrite (Invoke_run _ _ _ _ _ G HG) in Hrun.
  destruct (run fuel G ctx messages (entryPoint G)) as [[res1 tr]|] eqn:Hr; [|done].
  injection Hrun as _ <-. exists tr. split; [done|].
  by apply run_linked with fuel ctx messages res1.
Qed.

Lemma Invoke_calls_follow_edges_witness :
  ∃ tr, called ["node1"; "node2"] (world_of graph_no_END)
        = called tr (world_of graph_no_END)
        ∧ linked (edges graph_no_END) (entryPoint graph_no_END) tr
        ∧ Forall (λ name, is_Some (nodes graph_no_END !! name)) tr.
Proof.
  apply (Invoke_calls_follow_edges 3 r1 Background input_A (world_of graph_no_END)
           (called ["node1"; "node2"] (world_of graph_no_END)) graph_no_END
           (nil_slice, Some (Errorf_w_s ErrNodeNotFound END)));
    [reflexivity | vm_compute; reflexivity].
Defined.

(** ** What [Invoke] writes *)

(** Whatever holds of the store and is kept by every call of a closure is
    kept by a sequence of such calls. *)
Lemma node_effects_invariant (I : Shared.Store -> Prop) code mem mem' :
  (∀ i f ctx s m res m1,
      code !! i = Some f → f ctx s m = Shared.Normal res m1 → I m → I m1) →
  Shared.node_effects code mem mem' →
  I mem → I mem'.
Proof.
  intros Hkeep Heff. induction Heff as [mem|mem mem1 mem2 i f ctx s res Hi Hf _ IH];
    [done|].
  intros HI. apply IH. by apply (Hkeep i f ctx s mem res mem1).
Qed.

(** The store a run of the loop ends in is the store it started in, as
    changed by the node functions called on the way. *)
Lemma Invoke_loop_effects code fuel r ctx state cur mem res mem' :
  Shared.Invoke_loop code fuel r ctx state cur mem = Shared.Normal res mem' →
  Shared.node_effects code mem mem'.
Proof.
  revert state cur mem.
  induction fuel as [|fuel IH]; intros state cur mem Hrun; [done|].
  simpl in Hrun.
  unfold mbind, Shared.M_bind, Shared.load, Shared.call, mret, Shared.M_ret in Hrun.
  destruct (Shared.graphs mem !! graph r) as [G|]; [|done].
  destruct (Shared.nodes G !! cur) as [nd|].
  - destruct (code !! Shared.Function nd) as [f|] eqn:Hcode; [|done].
    destruct (f ctx state mem) as [[s1 oe] mem1| |] eqn:Hf; [|done|done].
    apply (Shared.effects_call code mem mem1 mem' _ f ctx state (s1, oe) Hcode Hf).
    destruct oe as [e|].
    + injection Hrun as _ <-. constructor.
    + destruct (String.eqb cur END).
      * injection Hrun as _ <-. constructor.
      * destruct (Shared.graphs mem1 !! graph r) as [G'|]; [|done].
        destruct (range_edges (Shared.edges G') cur) as [next [|]].
        -- by apply IH with s1 next.
        -- injection Hrun as _ <-. constructor.
  - injection Hrun as _ <-. constructor.
Qed.

(** C9. As the code has it: [Invoke] writes nothing itself. The store
    after a call, returned with a state or with an error, is the store
    before it as changed by the node functions that were called, one after
    the other. So when node functions leave the graph objects alone, node
    map, edge list and entry point are the same before and after the call,
    and when they write nothing no object at all has changed: the cursor
    and the state variable are kept nowhere but in the call. *)
Theorem Invoke_writes_nothing (code : list Shared.closure) (fuel : nat)
    (r : Runnable) (ctx : Context) (messages : Shared.State)
    (mem mem' : Shared.Store) (res : Shared.State * option error) :
  Shared.Invoke code fuel r ctx messages mem = Shared.Normal res mem' →
  Shared.node_effects code mem mem'
  ∧ ((∀ i f ctx0 s m res0 m1,
         code !! i = Some f → f ctx0 s m = Shared.Normal res0 m1 →
         Shared.graphs m1 = Shared.graphs m) →
     Shared.graphs mem' = Shared.graphs mem)
  ∧ ((∀ i f ctx0 s m res0 m1,
         code !! i = Some f → f ctx0 s m = Shared.Normal res0 m1 → m1 = m) →
     mem' = mem).
Proof.
  intros Hrun.
  assert (Heff : Shared.node_effects code mem mem').
  { unfold Shared.Invoke, mbind, Shared.M_bind, Shared.load in Hrun.
    destruct (Shared.graphs mem !! graph r) as [G|]; [|done].
    by apply Invoke_loop_effects in Hrun. }
  split; [done|split].
  - intros Hkeep.
    apply (node_effects_invariant
             (λ m, Shared.graphs m = Shared.graphs mem) code mem mem');
      [|done|done].
    intros i f ctx0 s m res0 m1 Hi Hf <-. by apply (Hkeep i f ctx0 s m res0 m1).
  - intros Hkeep.
    apply (node_effects_invariant (λ m, m = mem) code mem mem'); [|done|done].
    intros i f ctx0 s m res0 m1 Hi Hf ->. by apply (Hkeep i f ctx0 s mem res0 m1).
Qed.

Lemma Invoke_writes_nothing_witness :
  Shared.Invoke Shared.code_2 2 r1 Background Shared.messages_0 Shared.store_0
  = Shared.Normal (Shared.Nil, Some (Errorf_w_s ErrNoOutgoingEdge "n1"))
                  Shared.store_3
  ∧ Shared.node_effects Shared.code_2 Shared.store_0 Shared.store_3
  ∧ Shared.graphs Shared.store_3 = Shared.graphs Shared.store_0.
Proof.
  assert (Hrun : Shared.Invoke Shared.code_2 2 r1 Background Shared.messages_0
                   Shared.store_0
                 = Shared.Normal (Shared.Nil, Some (Errorf_w_s ErrNoOutgoingEdge "n1"))
                                 Shared.store_3)
    by (vm_compute; reflexivity).
  split; [exact Hrun|].
  destruct (Invoke_writes_nothing Shared.code_2 2 r1 Background Shared.messages_0
              Shared.store_0 Shared.store_3
              (Shared.Nil, Some (Errorf_w_s ErrNoOutgoingEdge "n1")) Hrun)
    as (H1 & H2 & _).
  split; [exact H1|].
  apply H2. intros i f ctx0 s m res0 m1 Hi Hf.
  destruct i as [|[|i]]; simpl in Hi; [| |discriminate].
  - injection Hi as <-.
    unfold Shared.say, mbind, Shared.M_bind, Shared.append, mret, Shared.M_ret in Hf.
    destruct s as [|a off len cap]; [by injection Hf as _ <-|].
    destruct (Nat.ltb len cap); by injection Hf as _ <-.
  - injection Hi as <-. by injection Hf as _ <-.
Defined.

(** C9, as stated, fails. A node function that has captured the builder
    adds an edge during the call, and appends to the state in place: after
    [Invoke] has returned,
    with a nil error, the edge list of the graph and the array the caller
    passed a window of have both changed. *)
Lemma Invoke_changes_graph_and_array :
  Shared.Invoke Shared.code_0 2 r1 Background Shared.messages_0 Shared.store_0
  = Shared.Normal (Shared.Window 1%positive 0 2 2, None) Shared.store_1
  ∧ Shared.graphs Shared.store_1 ≠ Shared.graphs Shared.store_0
  ∧ Shared.edges <$> Shared.graphs Shared.store_0 !! 1%positive = Some []
  ∧ Shared.edges <$> Shared.graphs Shared.store_1 !! 1%positive
    = Some [ {| From := "n1"; To := END |} ]
  ∧ Shared.elems Shared.store_0 (Shared.Window 1%positive 0 2 2)
    = [llms.TextParts llms.ChatMessageTypeHuman "Input";
       llms.TextParts llms.ChatMessageTypeHuman "draft"]
  ∧ Shared.elems Shared.store_1 (Shared.Window 1%positive 0 2 2)
    = [llms.TextParts llms.ChatMessageTypeHuman "Input";
       llms.TextParts llms.ChatMessageTypeAI "Node 1"].
Proof.
  split; [vm_compute; reflexivity|].
  split; [|repeat split; vm_compute; reflexivity].
  intros H.
  apply (f_equal (λ m, Shared.edges <$> m !! 1%positive)) in H.
  vm_compute in H. discriminate.
Qed.
